(** * net/uring/io_uring.c: the io_uring receive shim

    A shallow embedding of [src/net/uring/io_uring.c]: the completion wait
    [receive_into], the address decoders [ip] and [port], and the two
    submission operations [submit_recvmsg_request] and [submit_nop_request].

    The C functions work on three kinds of state:
    - user memory, reached through the pointers they are given (the iovec,
      the msghdr, the sender slot, the buffer): a byte-addressed memory;
    - the ring ([struct io_uring]): the submission queue, the requests the
      kernel owns, and the completion queue;
    - the kernel, which answers the [io_uring_enter] system calls issued by
      liburing: its answers are an explicit argument of each operation
      that enters the kernel.

    liburing and the kernel are not part of the file; their operations are
    modelled after liburing's inline helpers ([liburing.h]) and the
    documented contract of the ring.  The diagnostics of [receive_into]
    are kept as the list of calls made to [perror] and [fprintf]. *)

From Stdlib Require Import String.
From Stdlib Require Import ZArith List Lia Bool.
From Stdlib Require Import Strings.Byte.
From coqutil Require Import Z.bitblast.
Import ListNotations.
Local Open Scope Z_scope.

(* ===================================================================== *)
(** ** Bytes and byte order *)
(* ===================================================================== *)

Module Bytes.

(** The unsigned value of a byte. *)
Definition byte_val (b : byte) : Z := Z.of_N (Byte.to_N b).

(** The low eight bits of an integer, as a byte. *)
Definition byte_of (z : Z) : byte :=
  match Byte.of_N (Z.to_N (z mod 256)) with
  | Some b => b
  | None => x00
  end.

Inductive endianness : Type := LittleEndian | BigEndian.

(** [n] bytes of [v], least significant first.  A negative [v] yields its
    two's complement, as a C conversion to an unsigned type does. *)
Fixpoint encode_le (n : nat) (v : Z) : list byte :=
  match n with
  | O => []
  | S n' => byte_of v :: encode_le n' (v / 256)
  end.

Fixpoint decode_le (bs : list byte) : Z :=
  match bs with
  | [] => 0
  | b :: bs' => byte_val b + 256 * decode_le bs'
  end.

(** Most significant byte first: network byte order. *)
Definition decode_be (bs : list byte) : Z := decode_le (rev bs).

Definition encode (h : endianness) (n : nat) (v : Z) : list byte :=
  match h with
  | LittleEndian => encode_le n v
  | BigEndian => rev (encode_le n v)
  end.

Definition decode (h : endianness) (bs : list byte) : Z :=
  match h with
  | LittleEndian => decode_le bs
  | BigEndian => decode_be bs
  end.

(** glibc's [__bswap_32] and [__bswap_16] ([<bits/byteswap.h>]). *)
Definition bswap_32 (x : Z) : Z :=
  Z.lor (Z.lor (Z.lor (Z.shiftr (Z.land x 0xff000000) 24)
                      (Z.shiftr (Z.land x 0x00ff0000) 8))
               (Z.shiftl (Z.land x 0x0000ff00) 8))
        (Z.shiftl (Z.land x 0x000000ff) 24).

Definition bswap_16 (x : Z) : Z :=
  Z.lor (Z.land (Z.shiftr x 8) 0xff) (Z.shiftl (Z.land x 0xff) 8).

(** [ntohl] and [ntohs]: the identity on a big-endian host, a byte swap on
    a little-endian one. *)
Definition ntohl (h : endianness) (x : Z) : Z :=
  match h with
  | BigEndian => x
  | LittleEndian => bswap_32 x
  end.

Definition ntohs (h : endianness) (x : Z) : Z :=
  match h with
  | BigEndian => x
  | LittleEndian => bswap_16 x
  end.

End Bytes.
Export Bytes.

(* ===================================================================== *)
(** ** User memory *)
(* ===================================================================== *)

(** Addresses are integers; a pointer is 64 bits wide (LP64). *)
Definition ptr : Type := Z.
Definition NULL : ptr := 0.
Definition pointer_bits : Z := 64.

Definition memory : Type := ptr -> byte.

Fixpoint load_bytes (m : memory) (a : ptr) (n : nat) : list byte :=
  match n with
  | O => []
  | S n' => m a :: load_bytes m (a + 1) n'
  end.

Fixpoint store_bytes (m : memory) (a : ptr) (bs : list byte) : memory :=
  match bs with
  | [] => m
  | b :: bs' => store_bytes (fun x => if x =? a then b else m x) (a + 1) bs'
  end.

(** A member of a C struct: its byte offset and its width in bytes. *)
Record field : Type := Field { f_off : Z; f_size : nat }.

(** Layout of the structures on LP64 Linux. *)

(** [struct iovec] ([<sys/uio.h>]), 16 bytes. *)
Definition iov_base : field := Field 0 8.
Definition iov_len : field := Field 8 8.
Definition sizeof_iovec : Z := 16.

(** [struct msghdr] ([<sys/socket.h>]), 56 bytes. *)
Definition msg_name : field := Field 0 8.
Definition msg_namelen : field := Field 8 4.
Definition msg_iov : field := Field 16 8.
Definition msg_iovlen : field := Field 24 8.
Definition msg_control : field := Field 32 8.
Definition msg_controllen : field := Field 40 8.
Definition msg_flags : field := Field 48 4.
Definition sizeof_msghdr : Z := 56.

(** [struct sockaddr_in] ([<netinet/in.h>]), 16 bytes; [sin_port] and
    [sin_addr.s_addr] are kept in network byte order. *)
Definition sin_family : field := Field 0 2.
Definition sin_port : field := Field 2 2.
Definition sin_addr : field := Field 4 4.
Definition sizeof_sockaddr_in : Z := 16.

Definition load_field (h : endianness) (m : memory) (p : ptr) (f : field) : Z :=
  decode h (load_bytes m (p + f_off f) (f_size f)).

Definition store_field (h : endianness) (m : memory) (p : ptr) (f : field) (v : Z)
  : memory :=
  store_bytes m (p + f_off f) (encode h (f_size f) v).

(** The addresses covered by member [f] of the struct at [p]. *)
Definition in_field (p : ptr) (f : field) (a : ptr) : Prop :=
  p + f_off f <= a < p + f_off f + Z.of_nat (f_size f).

(** The addresses of the [n]-byte object at [p]. *)
Definition in_object (p : ptr) (n : Z) (a : ptr) : Prop := p <= a < p + n.

(* ===================================================================== *)
(** ** The ring *)
(* ===================================================================== *)

(** The two opcodes the file submits ([enum io_uring_op]). *)
Inductive io_uring_op : Type := IORING_OP_NOP | IORING_OP_RECVMSG.

(** A submission-queue entry: the members liburing's prepare helpers set. *)
Record io_uring_sqe : Type := Sqe {
  sqe_opcode : io_uring_op;
  sqe_flags : Z;
  sqe_ioprio : Z;
  sqe_fd : Z;
  sqe_off : Z;
  sqe_addr : Z;
  sqe_len : Z;
  sqe_msg_flags : Z;      (* the union member rw_flags / msg_flags *)
  sqe_user_data : Z
}.

(** A completion-queue entry. *)
Record io_uring_cqe : Type := Cqe {
  cqe_user_data : Z;
  cqe_res : Z;
  cqe_flags : Z
}.

(** [struct io_uring], together with the kernel's side of it.
    - [sq]: the entries handed out by [io_uring_get_sqe] and not yet taken
      by the kernel, oldest first; at most [sq_entries] of them;
    - [inflight]: the requests the kernel has taken and not yet completed;
    - [cq]: the completions posted and not yet marked seen, oldest first;
    - [cq_head]: how many completions have been marked seen. *)
Record io_uring : Type := Ring {
  sq_entries : nat;
  sq : list io_uring_sqe;
  inflight : list io_uring_sqe;
  cq : list io_uring_cqe;
  cq_head : nat
}.

(** A call that writes to stderr: [perror(s)], or
    [fprintf(stderr, format, args)] with the format as the source has it. *)
Inductive diagnostic : Type :=
| Perror (s : string)
| Fprintf (format : string) (args : list Z).

Record world : Type := World {
  w_mem : memory;
  w_ring : io_uring;
  w_stderr : list diagnostic
}.

Definition set_mem (m : memory) (w : world) : world :=
  World m (w_ring w) (w_stderr w).
Definition set_ring (r : io_uring) (w : world) : world :=
  World (w_mem w) r (w_stderr w).
Definition log (d : diagnostic) (w : world) : world :=
  World (w_mem w) (w_ring w) (w_stderr w ++ [d]).

Definition set_sq (q : list io_uring_sqe) (r : io_uring) : io_uring :=
  Ring (sq_entries r) q (inflight r) (cq r) (cq_head r).

(** Error numbers are positive; a failing call returns the negated number. *)
Definition errno : Type := positive.
Definition EPERM : errno := 1%positive.
Definition EINTR : errno := 4%positive.
Definition EAGAIN : errno := 11%positive.

(* ===================================================================== *)
(** ** Outcomes of a call *)
(* ===================================================================== *)

(** A call either returns a value, or faults on an invalid pointer (the
    null submission slot), or blocks in the kernel for ever.  Each outcome
    carries the state reached. *)
Inductive outcome (A : Type) : Type :=
| Returns (a : A) (w : world)
| Faults (w : world)
| Blocks (w : world).
Arguments Returns {A} a w.
Arguments Faults {A} w.
Arguments Blocks {A} w.

Definition M (A : Type) : Type := world -> outcome A.

Definition ret {A} (a : A) : M A := fun w => Returns a w.

Definition bind {A B} (c : M A) (k : A -> M B) : M B :=
  fun w =>
    match c w with
    | Returns a w' => k a w'
    | Faults w' => Faults w'
    | Blocks w' => Blocks w'
    end.

Notation "x <- c ;; k" := (bind c (fun x => k))
  (at level 61, c at next level, right associativity).
Notation "c ;; k" := (bind c (fun _ => k))
  (at level 61, right associativity).

(** The value a call returned, if it returned. *)
Definition return_value {A} (o : outcome A) : option A :=
  match o with
  | Returns a _ => Some a
  | _ => None
  end.

(** The state a call ended in. *)
Definition final_state {A} (o : outcome A) : world :=
  match o with
  | Returns _ w => w
  | Faults w => w
  | Blocks w => w
  end.

Definition perror (s : string) : M unit :=
  fun w => Returns tt (log (Perror s) w).

Definition fprintf_stderr (format : string) (args : list Z) : M unit :=
  fun w => Returns tt (log (Fprintf format args) w).

(** Memory accesses of the C code. *)
Section Host.

(** Byte order of the machine the code runs on. *)
Variable host : endianness.

Definition load (p : ptr) (f : field) : M Z :=
  fun w => Returns (load_field host (w_mem w) p f) w.

Definition store (p : ptr) (f : field) (v : Z) : M unit :=
  fun w => Returns tt (set_mem (store_field host (w_mem w) p f v) w).

(* =================================================================== *)
(** ** Address decoding: [ip], [port] *)
(* =================================================================== *)

(** [return ntohl(sa->sin_addr.s_addr);] *)
Definition ip (sa : ptr) : M Z :=
  s_addr <- load sa sin_addr ;;
  ret (ntohl host s_addr).

(** [return ntohs(sa->sin_port);] *)
Definition port (sa : ptr) : M Z :=
  p <- load sa sin_port ;;
  ret (ntohs host p).

End Host.

(* ===================================================================== *)
(** ** liburing *)
(* ===================================================================== *)

(** A pointer into the submission queue: the position of the entry in
    [sq], or [None] for the null pointer. *)
Definition sqe_ptr : Type := option nat.

Definition sqe_blank : io_uring_sqe := Sqe IORING_OP_NOP 0 0 0 0 0 0 0 0.

Fixpoint list_set {A} (i : nat) (x : A) (l : list A) : list A :=
  match l, i with
  | [], _ => []
  | _ :: t, O => x :: t
  | h :: t, S i' => h :: list_set i' x t
  end.

(** [io_uring_get_sqe]: the next free entry of the submission queue, or the
    null pointer when [sq_entries] entries are already queued.  Whatever
    the entry held before is overwritten by the prepare helpers. *)
Definition io_uring_get_sqe : M sqe_ptr :=
  fun w =>
    let r := w_ring w in
    if (length (sq r) <? sq_entries r)%nat
    then Returns (Some (length (sq r))) (set_ring (set_sq (sq r ++ [sqe_blank]) r) w)
    else Returns None w.

(** A write through an entry pointer; a null pointer faults. *)
Definition sqe_write (sqe : sqe_ptr) (f : io_uring_sqe -> io_uring_sqe) : M unit :=
  fun w =>
    match sqe with
    | None => Faults w
    | Some i =>
        match nth_error (sq (w_ring w)) i with
        | None => Faults w
        | Some s => Returns tt (set_ring (set_sq (list_set i (f s) (sq (w_ring w))) (w_ring w)) w)
        end
    end.

Definition two64 : Z := 2 ^ pointer_bits.

(** [io_uring_prep_rw]: sets every member of the entry; [user_data] is
    cleared. *)
Definition io_uring_prep_rw (op : io_uring_op) (sqe : sqe_ptr) (fd : Z) (addr : ptr)
    (len : Z) (offset : Z) : M unit :=
  sqe_write sqe (fun _ =>
    {| sqe_opcode := op;
       sqe_flags := 0;
       sqe_ioprio := 0;
       sqe_fd := fd;
       sqe_off := offset;
       sqe_addr := addr mod two64;
       sqe_len := len;
       sqe_msg_flags := 0;
       sqe_user_data := 0 |}).

Definition set_msg_flags (v : Z) (s : io_uring_sqe) : io_uring_sqe :=
  Sqe (sqe_opcode s) (sqe_flags s) (sqe_ioprio s) (sqe_fd s) (sqe_off s)
      (sqe_addr s) (sqe_len s) v (sqe_user_data s).

Definition set_user_data (v : Z) (s : io_uring_sqe) : io_uring_sqe :=
  Sqe (sqe_opcode s) (sqe_flags s) (sqe_ioprio s) (sqe_fd s) (sqe_off s)
      (sqe_addr s) (sqe_len s) (sqe_msg_flags s) v.

(** [io_uring_prep_recvmsg(sqe, fd, msg, flags)]. *)
Definition io_uring_prep_recvmsg (sqe : sqe_ptr) (fd : Z) (msg : ptr) (flags : Z)
  : M unit :=
  io_uring_prep_rw IORING_OP_RECVMSG sqe fd msg 1 0 ;;
  sqe_write sqe (set_msg_flags flags).

(** [io_uring_prep_nop(sqe)]. *)
Definition io_uring_prep_nop (sqe : sqe_ptr) : M unit :=
  io_uring_prep_rw IORING_OP_NOP sqe (-1) NULL 0 0.

(** [io_uring_sqe_set_data(sqe, data)]: [sqe->user_data = (unsigned long) data]. *)
Definition io_uring_sqe_set_data (sqe : sqe_ptr) (data : ptr) : M unit :=
  sqe_write sqe (set_user_data (data mod two64)).

(** [io_uring_cqe_get_data(cqe)]: the [user_data] member, converted back
    to a pointer. *)
Definition io_uring_cqe_get_data (c : io_uring_cqe) : ptr := cqe_user_data c.

(** What the kernel answers to the [io_uring_enter] call of a submit: it
    takes every queued entry, or fails with an error number and takes
    none. *)
Inductive submit_reply : Type :=
| SubmitAccepted
| SubmitRejected (e : errno).

(** [io_uring_submit]: the number of entries the kernel took, or the
    negated error number.  The entries taken are in flight when the call
    returns; a request the kernel finishes on the spot is a
    [kernel_complete] step taken right after. *)
Definition io_uring_submit (reply : submit_reply) : M Z :=
  fun w =>
    let r := w_ring w in
    match reply with
    | SubmitAccepted =>
        Returns (Z.of_nat (length (sq r)))
                (set_ring (Ring (sq_entries r) [] (inflight r ++ sq r) (cq r) (cq_head r)) w)
    | SubmitRejected e => Returns (Z.neg e) w
    end.

(** The kernel finishes in-flight request [i] with result [res]: it posts a
    completion that carries the request's [user_data] unchanged.  Only the
    ring is described: the datagram and the sender address the kernel
    stores through the request's msghdr are left out, so nothing is said
    here about the memory a wait ends with. *)
Definition kernel_complete (i : nat) (res : Z) (r : io_uring) : option io_uring :=
  match nth_error (inflight r) i with
  | None => None
  | Some s =>
      Some (Ring (sq_entries r) (sq r)
                 (firstn i (inflight r) ++ skipn (S i) (inflight r))
                 (cq r ++ [Cqe (sqe_user_data s) res 0])
                 (cq_head r))
  end.

(** What the kernel answers to the [io_uring_enter] call of a wait: the
    call fails with an error number, or an in-flight request completes. *)
Inductive wait_reply : Type :=
| WaitFailed (e : errno)
| Completed (i : nat) (res : Z).

(** [io_uring_wait_cqe(ring, &cqe)]: result 0 and the oldest unseen
    completion, which stays in the queue; or a negated error number, the
    pointer left unset.  A completion already posted is returned without
    entering the kernel; otherwise the kernel's [reply] decides, and with
    no reply the call blocks. *)
Definition io_uring_wait_cqe (reply : option wait_reply) : M (Z * option io_uring_cqe) :=
  fun w =>
    match cq (w_ring w) with
    | c :: _ => Returns (0, Some c) w
    | [] =>
        match reply with
        | None => Blocks w
        | Some (WaitFailed e) => Returns (Z.neg e, None) w
        | Some (Completed i res) =>
            match kernel_complete i res (w_ring w) with
            | None => Blocks w
            | Some r' => Returns (0, hd_error (cq r')) (set_ring r' w)
            end
        end
    end.

(** [io_uring_cqe_seen(ring, cqe)]: [if (cqe) io_uring_cq_advance(ring, 1)],
    which releases the oldest completion. *)
Definition io_uring_cqe_seen (cqe : option io_uring_cqe) : M unit :=
  fun w =>
    match cqe with
    | None => Returns tt w
    | Some _ =>
        let r := w_ring w in
        Returns tt (set_ring (Ring (sq_entries r) (sq r) (inflight r) (tl (cq r))
                                   (S (cq_head r))) w)
    end.

(** A read through a completion pointer; an unset pointer faults. *)
Definition cqe_read {A} (cqe : option io_uring_cqe) (k : io_uring_cqe -> M A) : M A :=
  match cqe with
  | None => fun w => Faults w
  | Some c => k c
  end.

(* ===================================================================== *)
(** ** Completion wait: [receive_into] *)
(* ===================================================================== *)

(** [k] lists the kernel's answers to the successive waits that enter the
    kernel.  The jump to [again] is the recursive call; it is taken only
    after a wait that consumed an answer, so the branch for an exhausted
    list is never reached. *)
Fixpoint receive_into (k : list wait_reply) : M Z :=
  r <- io_uring_wait_cqe (hd_error k) ;;
  let '(ret_, cqe) := r in
  if ret_ =? - Z.pos EINTR then
    match k with
    | _ :: k' => receive_into k'
    | [] => fun w => Blocks w
    end
  else if ret_ <? 0 then
    perror "io_uring_wait_cqe" ;;
    ret ret_
  else
    cqe_read cqe (fun c =>
      if cqe_res c <? 0 then
        fprintf_stderr "recvmsg failed: %d.\n" [cqe_res c] ;;
        ret (cqe_res c)
      else
        let mhdr := io_uring_cqe_get_data c in
        if mhdr =? NULL then
          fprintf_stderr "received nop\n" [] ;;
          ret (-1)
        else
          let n := cqe_res c in
          io_uring_cqe_seen cqe ;;
          ret n).

(* ===================================================================== *)
(** ** Submission: [submit_recvmsg_request], [submit_nop_request] *)
(* ===================================================================== *)

Section Submit.

Variable host : endianness.

(** [reply] is the kernel's answer to the flush. *)
Definition submit_recvmsg_request (reply : submit_reply) (sock : Z) (mhdr iov sender : ptr)
    (buf : ptr) (buflen : Z) : M Z :=
  store host iov iov_base buf ;;
  store host iov iov_len buflen ;;

  store host mhdr msg_iov iov ;;
  store host mhdr msg_iovlen 1 ;;

  store host mhdr msg_name sender ;;
  store host mhdr msg_namelen sizeof_sockaddr_in ;;

  sqe <- io_uring_get_sqe ;;
  io_uring_prep_recvmsg sqe sock mhdr 0 ;;
  io_uring_sqe_set_data sqe mhdr ;;
  io_uring_submit reply ;;

  ret 0.

Definition submit_nop_request (reply : submit_reply) : M unit :=
  sqe <- io_uring_get_sqe ;;
  io_uring_prep_nop sqe ;;
  io_uring_submit reply ;;
  ret tt.

End Submit.

(* ===================================================================== *)
(** ** Auxiliary notions used in the statements *)
(* ===================================================================== *)

(** The kernel's answers left once the leading interrupted waits are
    dropped. *)
Fixpoint skip_interrupts (k : list wait_reply) : list wait_reply :=
  match k with
  | WaitFailed e :: k' => if (e =? EINTR)%positive then skip_interrupts k' else k
  | _ => k
  end.

(** A free entry is left in the submission queue. *)
Definition slot_available (r : io_uring) : Prop :=
  (length (sq r) < sq_entries r)%nat.

Definition valid_ptr (p : ptr) : Prop := 0 <= p < two64.

(** The bytes [submit_recvmsg_request] assigns: the two members of the
    iovec and four members of the msghdr. *)
Definition wired (mhdr iov : ptr) (a : ptr) : Prop :=
  in_field iov iov_base a \/ in_field iov iov_len a \/
  in_field mhdr msg_iov a \/ in_field mhdr msg_iovlen a \/
  in_field mhdr msg_name a \/ in_field mhdr msg_namelen a.

(** The object of [n] bytes at [p] shares no byte with the wired members. *)
Definition apart (p : ptr) (n : Z) (mhdr iov : ptr) : Prop :=
  forall a, in_object p n a -> ~ wired mhdr iov a.

(** The entry [submit_recvmsg_request] queues. *)
Definition recvmsg_sqe (sock : Z) (mhdr : ptr) : io_uring_sqe :=
  {| sqe_opcode := IORING_OP_RECVMSG;
     sqe_flags := 0;
     sqe_ioprio := 0;
     sqe_fd := sock;
     sqe_off := 0;
     sqe_addr := mhdr;
     sqe_len := 1;
     sqe_msg_flags := 0;
     sqe_user_data := mhdr |}.

Definition faulted {A} (o : outcome A) : bool :=
  match o with
  | Faults _ => true
  | _ => false
  end.

(** The state after the oldest completion has been released. *)
Definition released (w : world) : world :=
  let r := w_ring w in
  set_ring (Ring (sq_entries r) (sq r) (inflight r) (tl (cq r)) (S (cq_head r))) w.

(** What [receive_into] makes of the result [(ret_, cqe)] of a wait that
    was not interrupted, in state [w1]: the part of its body below the
    jump. *)
Definition decoded (ret_ : Z) (cqe : option io_uring_cqe) (w1 : world) : outcome Z :=
  if ret_ <? 0 then Returns ret_ (log (Perror "io_uring_wait_cqe") w1)
  else match cqe with
       | None => Faults w1
       | Some c =>
           if cqe_res c <? 0 then
             Returns (cqe_res c) (log (Fprintf "recvmsg failed: %d.\n" [cqe_res c]) w1)
           else if io_uring_cqe_get_data c =? NULL then
             Returns (-1) (log (Fprintf "received nop\n" []) w1)
           else Returns (cqe_res c) (released w1)
       end.

(** How the value [r] returned by [receive_into] relates to the result
    [(ret_, cqe)] of the wait: a failed wait's code, a failed completion's
    code, -1 for a completion without handle, or the byte count. *)
Definition return_contract (ret_ : Z) (cqe : option io_uring_cqe) (r : Z) : Prop :=
  (ret_ < 0 /\ r = ret_) \/
  (ret_ = 0 /\ exists c, cqe = Some c /\
     ((cqe_res c < 0 /\ r = cqe_res c) \/
      (0 <= cqe_res c /\ io_uring_cqe_get_data c = NULL /\ r = -1) \/
      (0 <= cqe_res c /\ io_uring_cqe_get_data c <> NULL /\ r = cqe_res c))).

(** The memory once the descriptor is wired: the six assignments of
    [submit_recvmsg_request], in order. *)
Definition wire (host : endianness) (mhdr iov sender buf : ptr) (buflen : Z)
    (m : memory) : memory :=
  let m := store_field host m iov iov_base buf in
  let m := store_field host m iov iov_len buflen in
  let m := store_field host m mhdr msg_iov iov in
  let m := store_field host m mhdr msg_iovlen 1 in
  let m := store_field host m mhdr msg_name sender in
  store_field host m mhdr msg_namelen sizeof_sockaddr_in.

(** The ring once the kernel has answered the flush of a queue to which
    entry [s] was added. *)
Definition flushed (reply : submit_reply) (s : io_uring_sqe) (r : io_uring) : io_uring :=
  match reply with
  | SubmitAccepted => Ring (sq_entries r) [] (inflight r ++ sq r ++ [s]) (cq r) (cq_head r)
  | SubmitRejected _ => Ring (sq_entries r) (sq r ++ [s]) (inflight r) (cq r) (cq_head r)
  end.

Definition INT_MAX : Z := 2 ^ 31 - 1.

(** *** Concrete states *)

Definition zero_memory : memory := fun _ => x00.

(** An idle ring of four entries. *)
Definition idle_ring : io_uring := Ring 4 [] [] [] 0.
Definition idle_world : world := World zero_memory idle_ring [].

(** A ring whose oldest completion is a receive that failed with EAGAIN;
    a second completion, of 10 bytes, waits behind it. *)
Definition failed_cqe : io_uring_cqe := Cqe 4096 (- Z.pos EAGAIN) 0.
Definition failed_world : world :=
  World zero_memory (Ring 4 [] [] [failed_cqe; Cqe 8192 10 0] 0) [].

(** A ring whose oldest completion is that of a no-op: null handle,
    result 0. *)
Definition nop_cqe : io_uring_cqe := Cqe NULL 0 0.
Definition nop_world : world :=
  World zero_memory (Ring 4 [] [] [nop_cqe; Cqe 8192 10 0] 0) [].

(** A ring whose oldest completion is a receive that failed with EPERM. *)
Definition eperm_cqe : io_uring_cqe := Cqe 4096 (- Z.pos EPERM) 0.
Definition eperm_world : world := World zero_memory (Ring 4 [] [] [eperm_cqe] 0) [].

(** A ring whose oldest completion is a receive of 10 bytes. *)
Definition ready_world : world :=
  World zero_memory (Ring 4 [] [] [Cqe 4096 10 0; Cqe 8192 7 0] 0) [].

(** A ring of one entry, idle; and the same ring with its entry queued, so
    that no slot is left: the state a submission reaches when the kernel
    rejects the flush. *)
Definition one_slot_world : world := World zero_memory (Ring 1 [] [] [] 0) [].
Definition full_ring : io_uring := Ring 1 [recvmsg_sqe 3 4096] [] [] 0.
Definition full_world : world := World zero_memory full_ring [].

(** *** Sequences of calls *)

(** The arguments of one call of [submit_recvmsg_request]. *)
Record recv_request : Type := Request {
  rq_sock : Z;
  rq_mhdr : ptr;
  rq_iov : ptr;
  rq_sender : ptr;
  rq_buf : ptr;
  rq_buflen : Z
}.

(** One call of [submit_recvmsg_request] per request, in order, the kernel
    accepting every flush. *)
Fixpoint submit_all (host : endianness) (qs : list recv_request) : M unit :=
  match qs with
  | [] => ret tt
  | q :: qs' =>
      submit_recvmsg_request host SubmitAccepted (rq_sock q) (rq_mhdr q) (rq_iov q)
        (rq_sender q) (rq_buf q) (rq_buflen q) ;;
      submit_all host qs'
  end.

(** The entry a request is queued as. *)
Definition request_sqe (q : recv_request) : io_uring_sqe :=
  recvmsg_sqe (rq_sock q) (rq_mhdr q).

(** [n] calls of [receive_into] in a row, none of which has to enter the
    kernel: the values returned, and the state reached.  The sequence
    stops at the first call that does not return. *)
Fixpoint receive_many (n : nat) (w : world) : list Z * world :=
  match n with
  | O => ([], w)
  | S n' =>
      match receive_into [] w with
      | Returns r w' => let '(rs, w'') := receive_many n' w' in (r :: rs, w'')
      | _ => ([], w)
      end
  end.

(** A completion that [receive_into] reports as a byte count. *)
Definition successful (c : io_uring_cqe) : Prop :=
  0 <= cqe_res c /\ io_uring_cqe_get_data c <> NULL.

(** The entry [submit_nop_request] queues. *)
Definition nop_sqe : io_uring_sqe := Sqe IORING_OP_NOP 0 0 (-1) 0 NULL 0 0 NULL.

(** Two requests with descriptors of their own. *)
Definition request_a : recv_request := Request 3 4096 8192 12288 16384 64.
Definition request_b : recv_request := Request 3 20480 24576 28672 32768 64.

(** The return contract without the no-payload case: the value is the code
    of the failed wait, the code of the failed completion, or the byte
    count of the completion, and nothing else. *)
Definition preserved_contract (ret_ : Z) (cqe : option io_uring_cqe) (r : Z) : Prop :=
  (ret_ < 0 /\ r = ret_) \/
  (ret_ = 0 /\ exists c, cqe = Some c /\
     ((cqe_res c < 0 /\ r = cqe_res c) \/
      (0 <= cqe_res c /\ 0 <= r /\ r = cqe_res c))).

(** Two sender slots filled by the kernel with the same peer,
    192.168.1.77 port 51413: one at 12288 in memory that is otherwise
    zero, one at 28672 with other bytes around it. *)
Definition peer_bytes : list byte := [xc8; xd5; xc0; xa8; x01; x4d].
Definition slot_a_world : world :=
  World (store_bytes zero_memory 12288 ([x02; x00] ++ peer_bytes)) idle_ring [].
Definition slot_b_world : world :=
  World (store_bytes (fun _ => xaa) 28672 ([x02; x00] ++ peer_bytes)) idle_ring [].

(** A ring whose oldest completion is a receive interrupted by a signal. *)
Definition eintr_world : world :=
  World zero_memory (Ring 4 [] [] [Cqe 4096 (- Z.pos EINTR) 0] 0) [].

(* ===================================================================== *)
(** * Properties *)
(* ===================================================================== *)

(** ** Bytes *)

Lemma byte_val_range (b : byte) : 0 <= byte_val b < 256.
Proof.
  unfold byte_val. pose proof (Byte.to_N_bounded b). lia.
Qed.

Lemma byte_val_of (z : Z) : byte_val (byte_of z) = z mod 256.
Proof.
  unfold byte_val, byte_of.
  assert (Hr : 0 <= z mod 256 < 256) by (apply Z.mod_pos_bound; lia).
  destruct (Byte.of_N (Z.to_N (z mod 256))) as [b|] eqn:E.
  - apply Byte.to_of_N in E. rewrite E. lia.
  - apply Byte.of_N_None_iff in E. lia.
Qed.

Lemma length_encode_le n v : length (encode_le n v) = n.
Proof. revert v; induction n; intros; simpl; auto. Qed.

Lemma length_encode h n v : length (encode h n v) = n.
Proof. destruct h; simpl; rewrite ?length_rev; apply length_encode_le. Qed.

Lemma decode_le_range bs : 0 <= decode_le bs < 256 ^ Z.of_nat (length bs).
Proof.
  induction bs as [|b bs IH].
  - simpl. lia.
  - cbn [decode_le length]. rewrite Nat2Z.inj_succ, Z.pow_succ_r by lia.
    pose proof (byte_val_range b). lia.
Qed.

Lemma decode_encode_le n v : decode_le (encode_le n v) = v mod 256 ^ Z.of_nat n.
Proof.
  revert v; induction n as [|n IH]; intros v.
  - simpl. symmetry. apply Z.mod_1_r.
  - cbn [encode_le decode_le]. rewrite IH, byte_val_of.
    rewrite Nat2Z.inj_succ, Z.pow_succ_r by lia.
    rewrite Z.rem_mul_r by lia. reflexivity.
Qed.

Lemma decode_encode h n v : decode h (encode h n v) = v mod 256 ^ Z.of_nat n.
Proof.
  destruct h; simpl; unfold decode_be; rewrite ?rev_involutive; apply decode_encode_le.
Qed.

(** Two bit fields that do not overlap add up. *)
Lemma lor_shiftl_add a b n :
  0 <= n -> 0 <= a < 2 ^ n -> Z.lor a (Z.shiftl b n) = a + b * 2 ^ n.
Proof.
  intros Hn Ha. rewrite <- Z.shiftl_mul_pow2 by lia. apply Z.or_to_plus.
  apply Z.bits_inj'. intros i Hi.
  rewrite Z.land_spec, Z.bits_0.
  destruct (Z.ltb_spec i n).
  - rewrite Z.shiftl_spec_low by lia. apply andb_false_r.
  - rewrite <- (Z.mod_small a (2 ^ n)) by lia.
    rewrite Z.mod_pow2_bits_high by lia. reflexivity.
Qed.

Ltac bits_done :=
  repeat match goal with
         | |- context [Z.testbit ?a ?j] => rewrite (Z.testbit_neg_r a j) by lia
         end;
  try Btauto.btauto.

(** The swaps, byte by byte. *)
Lemma bswap_32_bytes x :
  bswap_32 x =
  Z.lor (Z.lor (Z.lor ((x / 2 ^ 24) mod 2 ^ 8) (Z.shiftl ((x / 2 ^ 16) mod 2 ^ 8) 8))
               (Z.shiftl ((x / 2 ^ 8) mod 2 ^ 8) 16))
        (Z.shiftl (x mod 2 ^ 8) 24).
Proof.
  unfold bswap_32.
  change 0xff000000 with (Z.shiftl (Z.ones 8) 24).
  change 0x00ff0000 with (Z.shiftl (Z.ones 8) 16).
  change 0x0000ff00 with (Z.shiftl (Z.ones 8) 8).
  change 0x000000ff with (Z.ones 8).
  Z.bitblast; bits_done.
Qed.

Lemma bswap_16_bytes x :
  bswap_16 x = Z.lor ((x / 2 ^ 8) mod 2 ^ 8) (Z.shiftl (x mod 2 ^ 8) 8).
Proof.
  unfold bswap_16. change 0xff with (Z.ones 8).
  Z.bitblast; bits_done.
Qed.

Ltac byte_of_sum x :=
  subst x; Z.div_mod_to_equations; lia.

Lemma bswap_32_decode b0 b1 b2 b3 :
  bswap_32 (decode_le [b0; b1; b2; b3]) = decode_be [b0; b1; b2; b3].
Proof.
  rewrite bswap_32_bytes. unfold decode_be. cbn [decode_le rev app].
  pose proof (byte_val_range b0). pose proof (byte_val_range b1).
  pose proof (byte_val_range b2). pose proof (byte_val_range b3).
  set (x := byte_val b0 + _).
  assert (E0 : x mod 2 ^ 8 = byte_val b0) by byte_of_sum x.
  assert (E1 : (x / 2 ^ 8) mod 2 ^ 8 = byte_val b1) by byte_of_sum x.
  assert (E2 : (x / 2 ^ 16) mod 2 ^ 8 = byte_val b2) by byte_of_sum x.
  assert (E3 : (x / 2 ^ 24) mod 2 ^ 8 = byte_val b3) by byte_of_sum x.
  rewrite E0, E1, E2, E3.
  rewrite (lor_shiftl_add (byte_val b3) (byte_val b2) 8) by lia.
  rewrite (lor_shiftl_add _ (byte_val b1) 16) by lia.
  rewrite (lor_shiftl_add _ (byte_val b0) 24) by lia.
  lia.
Qed.

Lemma bswap_16_decode b0 b1 :
  bswap_16 (decode_le [b0; b1]) = decode_be [b0; b1].
Proof.
  rewrite bswap_16_bytes. unfold decode_be. cbn [decode_le rev app].
  pose proof (byte_val_range b0). pose proof (byte_val_range b1).
  set (x := byte_val b0 + _).
  assert (E0 : x mod 2 ^ 8 = byte_val b0) by byte_of_sum x.
  assert (E1 : (x / 2 ^ 8) mod 2 ^ 8 = byte_val b1) by byte_of_sum x.
  rewrite E0, E1.
  rewrite (lor_shiftl_add (byte_val b1) (byte_val b0) 8) by lia.
  lia.
Qed.

(** ** Memory *)

Lemma store_bytes_outside bs : forall m a x,
  x < a \/ a + Z.of_nat (length bs) <= x -> store_bytes m a bs x = m x.
Proof.
  induction bs as [|b bs IH]; intros m a x Hx; cbn [store_bytes].
  - reflexivity.
  - cbn [length] in Hx. rewrite IH by lia.
    destruct (Z.eqb_spec x a); [lia | reflexivity].
Qed.

Lemma load_store_bytes bs : forall m a,
  load_bytes (store_bytes m a bs) a (length bs) = bs.
Proof.
  induction bs as [|b bs IH]; intros m a; cbn [store_bytes load_bytes length].
  - reflexivity.
  - rewrite IH, store_bytes_outside by lia.
    rewrite Z.eqb_refl. reflexivity.
Qed.

Lemma load_bytes_ext n : forall m1 m2 a,
  (forall x, a <= x < a + Z.of_nat n -> m1 x = m2 x) ->
  load_bytes m1 a n = load_bytes m2 a n.
Proof.
  induction n as [|n IH]; intros m1 m2 a H; cbn [load_bytes].
  - reflexivity.
  - rewrite (H a) by lia. f_equal. apply IH. intros x Hx. apply H. lia.
Qed.

Lemma load_store_field h m p f v :
  load_field h (store_field h m p f v) p f = v mod 256 ^ Z.of_nat (f_size f).
Proof.
  unfold load_field, store_field.
  rewrite <- (length_encode h (f_size f) v) at 2.
  rewrite load_store_bytes. apply decode_encode.
Qed.

Lemma store_field_outside h m p f v x :
  ~ in_field p f x -> store_field h m p f v x = m x.
Proof.
  unfold in_field, store_field. intros Hx.
  apply store_bytes_outside. rewrite length_encode. lia.
Qed.

Lemma load_field_ext h m1 m2 p f :
  (forall x, in_field p f x -> m1 x = m2 x) ->
  load_field h m1 p f = load_field h m2 p f.
Proof.
  unfold load_field, in_field. intros H. f_equal. apply load_bytes_ext. exact H.
Qed.

Lemma load_field_range h m p f :
  0 <= load_field h m p f < 256 ^ Z.of_nat (f_size f).
Proof.
  unfold load_field.
  assert (L : forall n a, length (load_bytes m a n) = n)
    by (induction n; intros; simpl; auto).
  destruct h; simpl; unfold decode_be.
  - pose proof (decode_le_range (load_bytes m (p + f_off f) (f_size f))) as R.
    rewrite L in R. exact R.
  - pose proof (decode_le_range (rev (load_bytes m (p + f_off f) (f_size f)))) as R.
    rewrite length_rev, L in R. exact R.
Qed.

(** ** Address decoding *)

(** C8. [ip] and [port] return the address and the port of the sender
    slot as numbers: the value of the field read most significant byte
    first (network byte order), on a host of either byte order.  They
    always return, leave the whole state (the slot included) as it was,
    and the results fit 32 and 16 bits. *)
Theorem ip_port_decode (host : endianness) (sa : ptr) (w : world) :
  ip host sa w = Returns (load_field BigEndian (w_mem w) sa sin_addr) w /\
  port host sa w = Returns (load_field BigEndian (w_mem w) sa sin_port) w /\
  0 <= load_field BigEndian (w_mem w) sa sin_addr < 2 ^ 32 /\
  0 <= load_field BigEndian (w_mem w) sa sin_port < 2 ^ 16.
Proof.
  repeat split; try apply (load_field_range BigEndian (w_mem w) sa sin_addr);
    try apply (load_field_range BigEndian (w_mem w) sa sin_port).
  - unfold ip, bind, load, ret. f_equal.
    destruct host; [| reflexivity].
    unfold load_field. cbn [ntohl decode sin_addr f_size f_off load_bytes].
    apply bswap_32_decode.
  - unfold port, bind, load, ret. f_equal.
    destruct host; [| reflexivity].
    unfold load_field. cbn [ntohs decode sin_port f_size f_off load_bytes].
    apply bswap_16_decode.
Qed.

(** ** Completion wait *)

Lemma receive_into_eq k w :
  receive_into k w =
  match io_uring_wait_cqe (hd_error k) w with
  | Returns (ret_, cqe) w1 =>
      if ret_ =? - Z.pos EINTR then
        match k with
        | _ :: k' => receive_into k' w1
        | [] => Blocks w1
        end
      else decoded ret_ cqe w1
  | Faults w1 => Faults w1
  | Blocks w1 => Blocks w1
  end.
Proof.
  destruct k; cbn [receive_into]; unfold bind;
    (destruct (io_uring_wait_cqe _ w) as [[ret_ cqe] w1| |]; [| reflexivity ..]);
    (destruct (ret_ =? - Z.pos EINTR); [reflexivity |]);
    unfold decoded, ret, cqe_read;
    (destruct (ret_ <? 0); [reflexivity |]);
    (destruct cqe as [c|]; [| reflexivity]);
    (destruct (cqe_res c <? 0); [reflexivity |]);
    (destruct (io_uring_cqe_get_data c =? NULL); reflexivity).
Qed.

Lemma wait_ready reply w c cs :
  cq (w_ring w) = c :: cs -> io_uring_wait_cqe reply w = Returns (0, Some c) w.
Proof. unfold io_uring_wait_cqe. intros ->. reflexivity. Qed.

Lemma receive_into_ready k w c cs :
  cq (w_ring w) = c :: cs -> receive_into k w = decoded 0 (Some c) w.
Proof.
  intros H. rewrite receive_into_eq, (wait_ready _ _ _ _ H). reflexivity.
Qed.

Lemma receive_into_interrupted k w :
  cq (w_ring w) = [] -> receive_into (WaitFailed EINTR :: k) w = receive_into k w.
Proof.
  intros H. rewrite receive_into_eq. unfold io_uring_wait_cqe. rewrite H. reflexivity.
Qed.

Lemma receive_into_skip k w : receive_into k w = receive_into (skip_interrupts k) w.
Proof.
  destruct (cq (w_ring w)) as [|c cs] eqn:E.
  - induction k as [|[e|i res] k IH]; cbn [skip_interrupts]; try reflexivity.
    destruct (Pos.eqb_spec e EINTR) as [->|]; [| reflexivity].
    rewrite receive_into_interrupted by exact E. exact IH.
  - rewrite !(receive_into_ready _ _ _ _ E). reflexivity.
Qed.

Lemma skip_interrupts_head k e k' :
  skip_interrupts k = WaitFailed e :: k' -> e <> EINTR.
Proof.
  induction k as [|[e0|i res] k IH]; cbn [skip_interrupts]; try discriminate.
  destruct (Pos.eqb_spec e0 EINTR); [exact IH |].
  intros [= -> _]. assumption.
Qed.

(** The result of a wait on the first answer that is not an interruption. *)
Lemma wait_settled k w ret_ cqe w1 :
  io_uring_wait_cqe (hd_error (skip_interrupts k)) w = Returns (ret_, cqe) w1 ->
  (exists e, e <> EINTR /\ ret_ = Z.neg e /\ cqe = None /\ w1 = w) \/
  (ret_ = 0 /\ exists c cs, cqe = Some c /\ cq (w_ring w1) = c :: cs).
Proof.
  unfold io_uring_wait_cqe.
  destruct (cq (w_ring w)) as [|c cs] eqn:E.
  - destruct (skip_interrupts k) as [|[e|i res] k'] eqn:Ek; cbn [hd_error]; try discriminate.
    + intros [= <- <- <-]. left. exists e. repeat split.
      exact (skip_interrupts_head _ _ _ Ek).
    + unfold kernel_complete.
      destruct (nth_error (inflight (w_ring w)) i) as [s|]; [| discriminate].
      cbn [cq]. rewrite E. cbn [app hd_error].
      intros [= <- <- <-]. right. split; [reflexivity |].
      eexists _, _. split; reflexivity.
  - intros [= <- <- <-]. right. split; [reflexivity |]. eauto.
Qed.

Lemma receive_into_settled k w ret_ cqe w1 :
  io_uring_wait_cqe (hd_error (skip_interrupts k)) w = Returns (ret_, cqe) w1 ->
  receive_into k w = decoded ret_ cqe w1.
Proof.
  intros H. rewrite receive_into_skip, receive_into_eq, H.
  destruct (wait_settled _ _ _ _ _ H) as [(e & He & -> & _) | (-> & _)].
  - destruct (Z.eqb_spec (Z.neg e) (- Z.pos EINTR)) as [Heq|]; [| reflexivity].
    exfalso. apply He. injection Heq. auto.
  - reflexivity.
Qed.

Lemma receive_into_unsettled k w :
  return_value (io_uring_wait_cqe (hd_error (skip_interrupts k)) w) = None ->
  return_value (receive_into k w) = None.
Proof.
  intros H. rewrite receive_into_skip, receive_into_eq.
  destruct (io_uring_wait_cqe _ w); [discriminate | reflexivity ..].
Qed.

Lemma receive_into_wait_failed e k w :
  cq (w_ring w) = [] -> e <> EINTR ->
  receive_into (WaitFailed e :: k) w
    = Returns (Z.neg e) (log (Perror "io_uring_wait_cqe") w).
Proof.
  intros H He. rewrite receive_into_eq. unfold io_uring_wait_cqe. rewrite H.
  cbn [hd_error].
  destruct (Z.eqb_spec (Z.neg e) (- Z.pos EINTR)) as [Heq|]; [| reflexivity].
  exfalso. apply He. injection Heq. auto.
Qed.

Lemma receive_into_completed i res k w r' :
  cq (w_ring w) = [] -> kernel_complete i res (w_ring w) = Some r' ->
  receive_into (Completed i res :: k) w = receive_into [] (set_ring r' w).
Proof.
  intros H Hk. rewrite (receive_into_eq (_ :: _)).
  unfold io_uring_wait_cqe. rewrite H. cbn [hd_error]. rewrite Hk.
  unfold kernel_complete in Hk.
  destruct (nth_error (inflight (w_ring w)) i) as [s|]; [| discriminate].
  injection Hk as <-. cbn [cq]. rewrite H. cbn [app hd_error].
  symmetry. erewrite receive_into_ready; reflexivity.
Qed.

Lemma receive_into_interrupts n : forall k w,
  receive_into (repeat (WaitFailed EINTR) n ++ k) w = receive_into k w.
Proof.
  intros k w. rewrite receive_into_skip, (receive_into_skip k). f_equal.
  induction n as [|n IH]; [reflexivity |]. exact IH.
Qed.

(** A completion that failed, or that carries no handle, stays at the head
    of the queue: the ring is left as it was. *)
Lemma receive_into_unsuccessful_not_released k w c cs :
  cq (w_ring w) = c :: cs ->
  cqe_res c < 0 \/ io_uring_cqe_get_data c = NULL ->
  w_ring (final_state (receive_into k w)) = w_ring w.
Proof.
  intros H Hc. rewrite (receive_into_ready _ _ _ _ H). unfold decoded.
  cbn [Z.ltb Z.compare].
  destruct (Z.ltb_spec (cqe_res c) 0); [reflexivity |].
  destruct Hc as [Hc | ->]; [lia | reflexivity].
Qed.

(** A successful completion is released, once. *)
Lemma receive_into_success_released k w c cs :
  cq (w_ring w) = c :: cs ->
  0 <= cqe_res c -> io_uring_cqe_get_data c <> NULL ->
  receive_into k w = Returns (cqe_res c) (released w) /\
  cq (w_ring (released w)) = cs /\
  cq_head (w_ring (released w)) = S (cq_head (w_ring w)).
Proof.
  intros H Hres Hd. rewrite (receive_into_ready _ _ _ _ H). unfold decoded.
  cbn [Z.ltb Z.compare].
  destruct (Z.ltb_spec (cqe_res c) 0); [lia |].
  destruct (Z.eqb_spec (io_uring_cqe_get_data c) NULL); [contradiction |].
  unfold released. cbn. rewrite H. auto.
Qed.

(** C1, on the failing inputs.  With a completion queued that failed
    (result -EAGAIN), and with one that carries no handle, [receive_into]
    returns and leaves the ring as it was: the completion is not
    released, its slot is not given back, and the next call meets the same
    completion again.  Only for a successful completion is the oldest
    completion released, once. *)
Theorem receive_into_keeps_unsuccessful_completion :
  return_value (receive_into [] failed_world) = Some (- Z.pos EAGAIN) /\
  w_ring (final_state (receive_into [] failed_world)) = w_ring failed_world /\
  return_value (receive_into [] (final_state (receive_into [] failed_world)))
    = Some (- Z.pos EAGAIN) /\
  return_value (receive_into [] nop_world) = Some (-1) /\
  w_ring (final_state (receive_into [] nop_world)) = w_ring nop_world /\
  return_value (receive_into [] ready_world) = Some 10 /\
  cq (w_ring (final_state (receive_into [] ready_world))) = tl (cq (w_ring ready_world)) /\
  cq_head (w_ring (final_state (receive_into [] ready_world)))
    = S (cq_head (w_ring ready_world)).
Proof. repeat split; reflexivity. Qed.

(** C2, counterexample.  The completion of a no-op (null handle) and a
    receive that failed with EPERM (handle set) make [receive_into] return
    the same value, -1, which is also what a wait failing with EPERM
    gives: the condition is reported as a numeric error code. *)
Lemma nop_result_equals_eperm_code :
  io_uring_cqe_get_data nop_cqe = NULL /\
  io_uring_cqe_get_data eperm_cqe <> NULL /\
  return_value (receive_into [] nop_world) = Some (- Z.pos EPERM) /\
  return_value (receive_into [] eperm_world) = Some (- Z.pos EPERM) /\
  return_value (receive_into [WaitFailed EPERM] idle_world) = Some (- Z.pos EPERM).
Proof. repeat split; try reflexivity. discriminate. Qed.

(** C2, amended.  When the wait yields a completion whose handle is null,
    [receive_into] returns a negative value, never a byte count: -1 when
    the completion's result is not negative, the completion's own result
    when it is. *)
Theorem receive_into_null_handle k w c w1 :
  io_uring_wait_cqe (hd_error (skip_interrupts k)) w = Returns (0, Some c) w1 ->
  io_uring_cqe_get_data c = NULL ->
  exists r w2, receive_into k w = Returns r w2 /\ r < 0 /\
               (0 <= cqe_res c -> r = -1) /\ (cqe_res c < 0 -> r = cqe_res c).
Proof.
  intros H Hd. rewrite (receive_into_settled _ _ _ _ _ H). unfold decoded.
  cbn [Z.ltb Z.compare]. rewrite Hd.
  destruct (Z.ltb_spec (cqe_res c) 0).
  - exists (cqe_res c). eexists. repeat split; intros; lia.
  - exists (-1). eexists. repeat split; intros; lia.
Qed.

Lemma receive_into_null_handle_witness :
  exists r w2, receive_into [WaitFailed EINTR] nop_world = Returns r w2 /\ r < 0 /\
               (0 <= cqe_res nop_cqe -> r = -1) /\ (cqe_res nop_cqe < 0 -> r = cqe_res nop_cqe).
Proof.
  apply (receive_into_null_handle [WaitFailed EINTR] nop_world nop_cqe nop_world);
    reflexivity.
Defined.

(** C3.  Interrupted waits are retried: any number of leading waits that
    fail with EINTR leaves the outcome what it is without them.  While
    only interruptions arrive the call does not return; it returns the
    code of the first wait that fails otherwise, or decodes the first
    completion that arrives. *)
Theorem receive_into_retries_interrupted_wait (n : nat) (k : list wait_reply) (w : world) :
  receive_into (repeat (WaitFailed EINTR) n ++ k) w = receive_into k w /\
  (cq (w_ring w) = [] ->
   receive_into (repeat (WaitFailed EINTR) n) w = Blocks w) /\
  (forall e, cq (w_ring w) = [] -> e <> EINTR ->
   receive_into (repeat (WaitFailed EINTR) n ++ WaitFailed e :: k) w
     = Returns (Z.neg e) (log (Perror "io_uring_wait_cqe") w)) /\
  (forall i res r', cq (w_ring w) = [] -> kernel_complete i res (w_ring w) = Some r' ->
   receive_into (repeat (WaitFailed EINTR) n ++ Completed i res :: k) w
     = receive_into [] (set_ring r' w)).
Proof.
  split; [apply receive_into_interrupts |]. split; [| split].
  - intros H. rewrite <- (app_nil_r (repeat _ n)), receive_into_interrupts.
    rewrite receive_into_eq. unfold io_uring_wait_cqe. rewrite H. reflexivity.
  - intros e H He. rewrite receive_into_interrupts.
    apply receive_into_wait_failed; assumption.
  - intros i res r' H Hk. rewrite receive_into_interrupts.
    apply receive_into_completed; assumption.
Qed.

Lemma receive_into_retries_interrupted_wait_witness :
  receive_into (repeat (WaitFailed EINTR) 3 ++ WaitFailed EAGAIN :: [WaitFailed EINTR]) idle_world
    = Returns (Z.neg EAGAIN) (log (Perror "io_uring_wait_cqe") idle_world).
Proof.
  apply (proj1 (proj2 (proj2
           (receive_into_retries_interrupted_wait 3 [WaitFailed EINTR] idle_world)))).
  - reflexivity.
  - discriminate.
Defined.

(** C5, counterexample.  For the completion of a no-op the wait succeeds
    (result 0) and the completion's result is 0, yet [receive_into]
    returns -1: a negative value that is neither a byte count nor a code
    preserved from a failed wait or a failed completion. *)
Lemma nop_result_preserved_from_no_failure :
  io_uring_wait_cqe (hd_error (skip_interrupts [])) nop_world
    = Returns (0, Some nop_cqe) nop_world /\
  cqe_res nop_cqe = 0 /\
  return_value (receive_into [] nop_world) = Some (-1) /\
  ~ preserved_contract 0 (Some nop_cqe) (-1).
Proof.
  repeat split; try reflexivity.
  intros [[H _] | (_ & c & E & [[H _] | (_ & H & _)])].
  - lia.
  - injection E as <-. cbn in H. lia.
  - lia.
Qed.

(** C5, amended.  The value [receive_into] returns is a byte count, not
    negative and equal to the result of the completion the wait yielded,
    or a negative code: the code of the failed wait or of the failed
    completion, unchanged, or -1 for a completion without handle whose
    result is not negative.  The call returns whenever the wait,
    interruptions apart, returns. *)
Theorem receive_into_return_contract (k : list wait_reply) (w : world) :
  (forall ret_ cqe w1,
     io_uring_wait_cqe (hd_error (skip_interrupts k)) w = Returns (ret_, cqe) w1 ->
     exists r w2, receive_into k w = Returns r w2 /\ return_contract ret_ cqe r) /\
  (forall r w2,
     receive_into k w = Returns r w2 ->
     exists ret_ cqe w1,
       io_uring_wait_cqe (hd_error (skip_interrupts k)) w = Returns (ret_, cqe) w1 /\
       return_contract ret_ cqe r /\
       (r < 0 \/ (0 <= r /\ exists c, cqe = Some c /\ r = cqe_res c))).
Proof.
  assert (Fwd : forall ret_ cqe w1,
     io_uring_wait_cqe (hd_error (skip_interrupts k)) w = Returns (ret_, cqe) w1 ->
     exists r w2, receive_into k w = Returns r w2 /\ return_contract ret_ cqe r).
  { intros ret_ cqe w1 H. rewrite (receive_into_settled _ _ _ _ _ H).
    unfold decoded, return_contract.
    destruct (wait_settled _ _ _ _ _ H) as [(e & _ & -> & _) | (-> & c & cs & -> & _)].
    - exists (Z.neg e). eexists. cbn. split; [reflexivity |]. left. split; [lia | reflexivity].
    - cbn [Z.ltb Z.compare].
      destruct (Z.ltb_spec (cqe_res c) 0).
      + exists (cqe_res c). eexists. split; [reflexivity |]. right. split; [reflexivity |].
        exists c. split; [reflexivity |]. left. auto.
      + destruct (Z.eqb_spec (io_uring_cqe_get_data c) NULL).
        * exists (-1). eexists. split; [reflexivity |]. right. split; [reflexivity |].
          exists c. split; [reflexivity |]. right. left. auto.
        * exists (cqe_res c), (released w1). split; [reflexivity |].
          right. split; [reflexivity |].
          exists c. split; [reflexivity |]. right. right. auto. }
  split; [exact Fwd |].
  intros r w2 H.
  destruct (io_uring_wait_cqe (hd_error (skip_interrupts k)) w) as [[ret_ cqe] w1| |] eqn:E.
  - destruct (Fwd _ _ _ eq_refl) as (r' & w2' & H' & C).
    rewrite H in H'. injection H' as <- <-.
    exists ret_, cqe, w1. split; [reflexivity |]. split; [exact C |].
    destruct C as [[? ->] | (_ & c & -> & [[? ->] | [(_ & _ & ->) | (? & _ & ->)]])];
      try (left; lia).
    right. split; [assumption |]. exists c. auto.
  - pose proof (receive_into_unsettled k w) as U. rewrite E, H in U.
    discriminate (U eq_refl).
  - pose proof (receive_into_unsettled k w) as U. rewrite E, H in U.
    discriminate (U eq_refl).
Qed.

Lemma receive_into_return_contract_witness :
  exists r w2,
    receive_into [WaitFailed EINTR] ready_world = Returns r w2 /\
    return_contract 0 (Some (Cqe 4096 10 0)) r.
Proof.
  apply (proj1 (receive_into_return_contract [WaitFailed EINTR] ready_world)
               0 (Some (Cqe 4096 10 0)) ready_world).
  reflexivity.
Defined.

(** ** Submission *)

Lemma nth_error_app_end {A} (l : list A) x : nth_error (l ++ [x]) (length l) = Some x.
Proof. induction l; simpl; auto. Qed.

Lemma list_set_app_end {A} (l : list A) x y : list_set (length l) y (l ++ [x]) = l ++ [y].
Proof. induction l; simpl; [reflexivity | now f_equal]. Qed.

Lemma slot_available_ltb r :
  slot_available r <-> (length (sq r) <? sq_entries r)%nat = true.
Proof. unfold slot_available. symmetry. apply Nat.ltb_lt. Qed.

Lemma submit_recvmsg_request_slot host reply sock mhdr iov sender buf buflen w :
  slot_available (w_ring w) ->
  submit_recvmsg_request host reply sock mhdr iov sender buf buflen w =
  Returns 0 (World (wire host mhdr iov sender buf buflen (w_mem w))
                   (flushed reply (recvmsg_sqe sock (mhdr mod two64)) (w_ring w))
                   (w_stderr w)).
Proof.
  intros H. apply slot_available_ltb in H.
  unfold submit_recvmsg_request, bind, store, io_uring_get_sqe, set_mem. cbn [w_ring w_mem].
  rewrite H.
  unfold io_uring_prep_recvmsg, io_uring_prep_rw, io_uring_sqe_set_data, bind, sqe_write,
    set_ring, set_sq.
  cbn [w_ring w_mem sq sq_entries inflight cq cq_head].
  repeat (rewrite nth_error_app_end, list_set_app_end;
          cbn [w_ring w_mem sq sq_entries inflight cq cq_head]).
  unfold io_uring_submit, ret, set_ring. cbn [w_ring w_mem sq sq_entries inflight cq cq_head].
  destruct reply; cbn [flushed]; unfold wire, recvmsg_sqe, set_user_data, set_msg_flags;
    cbn [sqe_opcode sqe_flags sqe_ioprio sqe_fd sqe_off sqe_addr sqe_len sqe_msg_flags
         sqe_user_data].
  - reflexivity.
  - reflexivity.
Qed.

Lemma submit_recvmsg_request_no_slot host reply sock mhdr iov sender buf buflen w :
  ~ slot_available (w_ring w) ->
  submit_recvmsg_request host reply sock mhdr iov sender buf buflen w =
  Faults (set_mem (wire host mhdr iov sender buf buflen (w_mem w)) w).
Proof.
  intros H. rewrite slot_available_ltb in H. apply not_true_is_false in H.
  unfold submit_recvmsg_request, bind, store, io_uring_get_sqe, set_mem. cbn [w_ring w_mem].
  rewrite H. reflexivity.
Qed.

Lemma submit_nop_request_slot reply w :
  slot_available (w_ring w) ->
  submit_nop_request reply w =
  Returns tt (set_ring (flushed reply (Sqe IORING_OP_NOP 0 0 (-1) 0 0 0 0 0) (w_ring w)) w).
Proof.
  intros H. apply slot_available_ltb in H.
  unfold submit_nop_request, bind, io_uring_get_sqe. rewrite H.
  unfold io_uring_prep_nop, io_uring_prep_rw, sqe_write, set_ring, set_sq.
  cbn [w_ring w_mem sq sq_entries inflight cq cq_head].
  rewrite nth_error_app_end, list_set_app_end.
  unfold io_uring_submit, ret, set_ring. cbn [w_ring w_mem sq sq_entries inflight cq cq_head].
  destruct reply; cbn [flushed].
  - reflexivity.
  - reflexivity.
Qed.

Lemma submit_nop_request_no_slot reply w :
  ~ slot_available (w_ring w) -> submit_nop_request reply w = Faults w.
Proof.
  intros H. rewrite slot_available_ltb in H. apply not_true_is_false in H.
  unfold submit_nop_request, bind, io_uring_get_sqe. rewrite H. reflexivity.
Qed.

Lemma submit_recvmsg_request_memory host reply sock mhdr iov sender buf buflen w :
  w_mem (final_state (submit_recvmsg_request host reply sock mhdr iov sender buf buflen w))
  = wire host mhdr iov sender buf buflen (w_mem w).
Proof.
  destruct (Nat.ltb_spec (length (sq (w_ring w))) (sq_entries (w_ring w))) as [H|H].
  - rewrite submit_recvmsg_request_slot by exact H. reflexivity.
  - rewrite submit_recvmsg_request_no_slot by (unfold slot_available; lia). reflexivity.
Qed.

Lemma load_store_field_other h m p f v q g :
  (forall x, in_field q g x -> ~ in_field p f x) ->
  load_field h (store_field h m p f v) q g = load_field h m q g.
Proof.
  intros H. apply load_field_ext. intros x Hx. apply store_field_outside. auto.
Qed.

Lemma wire_outside host mhdr iov sender buf buflen m a :
  ~ wired mhdr iov a -> wire host mhdr iov sender buf buflen m a = m a.
Proof.
  unfold wired, wire. intros H.
  rewrite !store_field_outside by tauto. reflexivity.
Qed.

Ltac fields_apart := unfold in_field; cbn; intros; lia.

Lemma wire_fields host mhdr iov sender buf buflen m :
  iov + sizeof_iovec <= mhdr \/ mhdr + sizeof_msghdr <= iov ->
  let m' := wire host mhdr iov sender buf buflen m in
  load_field host m' iov iov_base = buf mod two64 /\
  load_field host m' iov iov_len = buflen mod two64 /\
  load_field host m' mhdr msg_iov = iov mod two64 /\
  load_field host m' mhdr msg_iovlen = 1 /\
  load_field host m' mhdr msg_name = sender mod two64 /\
  load_field host m' mhdr msg_namelen = sizeof_sockaddr_in.
Proof.
  unfold sizeof_iovec, sizeof_msghdr. intros H. cbv zeta. unfold wire.
  repeat split;
    rewrite ?load_store_field_other by fields_apart;
    rewrite load_store_field; reflexivity.
Qed.

(** C4, counterexample.  A full ring is what a submission leaves when the
    kernel rejects the flush of a ring of one entry.  On it the slot
    returned is the null pointer, no error comes back, and both operations
    fault when the prepare helper writes through it. *)
Lemma submit_full_ring_faults :
  w_ring (final_state
            (submit_recvmsg_request LittleEndian (SubmitRejected EAGAIN) 3 4096 8192 12288
               16384 64 one_slot_world)) = full_ring /\
  return_value (io_uring_get_sqe full_world) = Some None /\
  faulted (submit_recvmsg_request LittleEndian SubmitAccepted 3 4096 8192 12288 16384 64
             full_world) = true /\
  faulted (submit_nop_request SubmitAccepted full_world) = true.
Proof. repeat split; reflexivity. Qed.

(** C4, amended.  When no slot is available neither operation tests the
    pointer it obtained: the null slot goes to the prepare helper and the
    call faults there instead of returning an error.  By then
    [submit_recvmsg_request] has wired the descriptor; the ring is left as
    it was. *)
Theorem submit_without_slot_faults host reply sock mhdr iov sender buf buflen w :
  ~ slot_available (w_ring w) ->
  io_uring_get_sqe w = Returns None w /\
  submit_recvmsg_request host reply sock mhdr iov sender buf buflen w
    = Faults (set_mem (wire host mhdr iov sender buf buflen (w_mem w)) w) /\
  submit_nop_request reply w = Faults w.
Proof.
  intros H. split; [| split].
  - rewrite slot_available_ltb in H. apply not_true_is_false in H.
    unfold io_uring_get_sqe. rewrite H. reflexivity.
  - apply submit_recvmsg_request_no_slot. exact H.
  - apply submit_nop_request_no_slot. exact H.
Qed.

Lemma submit_without_slot_faults_witness :
  io_uring_get_sqe full_world = Returns None full_world /\
  submit_recvmsg_request BigEndian (SubmitRejected EAGAIN) 3 4096 8192 12288 16384 64 full_world
    = Faults (set_mem (wire BigEndian 4096 8192 12288 16384 64 zero_memory) full_world) /\
  submit_nop_request (SubmitRejected EAGAIN) full_world = Faults full_world.
Proof.
  apply (submit_without_slot_faults BigEndian (SubmitRejected EAGAIN) 3 4096 8192 12288
           16384 64 full_world).
  unfold slot_available. simpl. lia.
Defined.

(** C6, counterexample.  On a ring with no free entry the call faults on
    the null slot: it returns nothing, no entry has been populated and
    nothing has been flushed, the ring is as it was. *)
Lemma submit_recvmsg_request_full_ring_queues_nothing :
  faulted (submit_recvmsg_request LittleEndian SubmitAccepted 3 20480 24576 28672 32768 64
             full_world) = true /\
  return_value
    (submit_recvmsg_request LittleEndian SubmitAccepted 3 20480 24576 28672 32768 64
       full_world) = None /\
  w_ring (final_state
            (submit_recvmsg_request LittleEndian SubmitAccepted 3 20480 24576 28672 32768
               64 full_world)) = full_ring /\
  ~ In (recvmsg_sqe 3 20480) (sq full_ring ++ inflight full_ring).
Proof.
  repeat split; try reflexivity.
  cbn. intros [H | []]. discriminate H.
Qed.

(** C6, amended.  For distinct iovec and msghdr, pointers of 64 bits and a buffer
    length that is not negative, every call leaves the descriptor wired:
    iov_base = buf, iov_len = buflen, msg_iov = iov, msg_iovlen = 1,
    msg_name = sender, msg_namelen = 16, the size of the IPv4 socket
    address.  With a slot available the call returns 0 and one entry has
    been added to the queue: a receive-message operation on [sock] for
    [mhdr], flags 0, [user_data] the address [mhdr].  The queue has then
    been flushed: the kernel has taken every queued entry, or, when it
    rejected the flush, the entries stay queued. *)
Theorem submit_recvmsg_request_wires_and_queues
    host reply sock mhdr iov sender buf buflen w o :
  valid_ptr mhdr -> valid_ptr iov -> valid_ptr sender -> valid_ptr buf ->
  0 <= buflen <= INT_MAX ->
  iov + sizeof_iovec <= mhdr \/ mhdr + sizeof_msghdr <= iov ->
  o = submit_recvmsg_request host reply sock mhdr iov sender buf buflen w ->
  load_field host (w_mem (final_state o)) iov iov_base = buf /\
  load_field host (w_mem (final_state o)) iov iov_len = buflen /\
  load_field host (w_mem (final_state o)) mhdr msg_iov = iov /\
  load_field host (w_mem (final_state o)) mhdr msg_iovlen = 1 /\
  load_field host (w_mem (final_state o)) mhdr msg_name = sender /\
  load_field host (w_mem (final_state o)) mhdr msg_namelen = sizeof_sockaddr_in /\
  (slot_available (w_ring w) ->
   return_value o = Some 0 /\
   w_ring (final_state o) = flushed reply (recvmsg_sqe sock mhdr) (w_ring w)).
Proof.
  unfold valid_ptr, INT_MAX. intros Hm Hi Hsn Hb Hl Hd ->.
  rewrite submit_recvmsg_request_memory.
  destruct (wire_fields host mhdr iov sender buf buflen (w_mem w) Hd)
    as (F1 & F2 & F3 & F4 & F5 & F6).
  assert (B : buflen < two64) by (unfold two64, pointer_bits; lia).
  rewrite F1, F2, F3, F4, F5, F6, !Z.mod_small by lia.
  repeat (split; [reflexivity |]).
  intros Hs. rewrite submit_recvmsg_request_slot by exact Hs.
  cbn [return_value final_state w_ring]. rewrite Z.mod_small by lia.
  split; reflexivity.
Qed.

Lemma submit_recvmsg_request_wires_and_queues_witness :
  load_field LittleEndian
    (w_mem (final_state
       (submit_recvmsg_request LittleEndian SubmitAccepted 3 4096 8192 12288 16384 64
          idle_world))) 8192 iov_base = 16384 /\
  return_value
    (submit_recvmsg_request LittleEndian SubmitAccepted 3 4096 8192 12288 16384 64
       idle_world) = Some 0.
Proof.
  destruct (submit_recvmsg_request_wires_and_queues LittleEndian SubmitAccepted 3 4096
              8192 12288 16384 64 idle_world
              (submit_recvmsg_request LittleEndian SubmitAccepted 3 4096 8192 12288
                 16384 64 idle_world))
    as (F1 & _ & _ & _ & _ & _ & Hs);
    try reflexivity;
    try (unfold valid_ptr, INT_MAX, two64, pointer_bits, sizeof_iovec, sizeof_msghdr;
         simpl; lia).
  split; [exact F1 |].
  apply Hs. unfold slot_available. simpl. lia.
Defined.

(** C7.  The handle attached to a receive request comes back with its
    completion.  After a submission the kernel accepted, the request is in
    flight behind those queued before it; when the kernel completes it,
    with whatever result, the completion posted carries the address
    [mhdr], and this is the handle the wait hands to the caller. *)
Theorem correlation_handle_round_trip host sock mhdr iov sender buf buflen w res :
  slot_available (w_ring w) ->
  valid_ptr mhdr ->
  exists w1 r2 c,
    submit_recvmsg_request host SubmitAccepted sock mhdr iov sender buf buflen w
      = Returns 0 w1 /\
    kernel_complete (length (inflight (w_ring w)) + length (sq (w_ring w))) res (w_ring w1)
      = Some r2 /\
    cq r2 = cq (w_ring w) ++ [c] /\
    io_uring_cqe_get_data c = mhdr /\
    cqe_res c = res /\
    (cq (w_ring w) = [] ->
     io_uring_wait_cqe
       (Some (Completed (length (inflight (w_ring w)) + length (sq (w_ring w))) res)) w1
       = Returns (0, Some c) (set_ring r2 w1)).
Proof.
  unfold valid_ptr. intros Hs Hm.
  assert (N : nth_error (inflight (w_ring w) ++ sq (w_ring w) ++ [recvmsg_sqe sock mhdr])
                (length (inflight (w_ring w)) + length (sq (w_ring w)))
              = Some (recvmsg_sqe sock mhdr)).
  { rewrite app_assoc, <- length_app. apply nth_error_app_end. }
  eexists _, _, (Cqe mhdr res 0).
  split; [apply submit_recvmsg_request_slot; exact Hs |].
  rewrite Z.mod_small by exact Hm.
  unfold io_uring_wait_cqe, kernel_complete.
  cbn [w_ring flushed inflight cq sq sq_entries cq_head].
  rewrite N. cbn [sqe_user_data recvmsg_sqe].
  split; [reflexivity |]. split; [reflexivity |]. split; [reflexivity |].
  split; [reflexivity |].
  intros ->. reflexivity.
Qed.

Lemma correlation_handle_round_trip_witness :
  exists w1 r2 c,
    submit_recvmsg_request LittleEndian SubmitAccepted 3 4096 8192 12288 16384 64 idle_world
      = Returns 0 w1 /\
    kernel_complete 0 10 (w_ring w1) = Some r2 /\
    cq r2 = [c] /\
    io_uring_cqe_get_data c = 4096 /\
    cqe_res c = 10 /\
    (cq (w_ring idle_world) = [] ->
     io_uring_wait_cqe (Some (Completed 0 10)) w1 = Returns (0, Some c) (set_ring r2 w1)).
Proof.
  apply (correlation_handle_round_trip LittleEndian 3 4096 8192 12288 16384 64
           idle_world 10);
    unfold slot_available, valid_ptr, two64, pointer_bits; simpl; lia.
Defined.

(** C9, counterexample.  A first call on a ring of one entry returns 0
    although the kernel rejected the flush; the entry stays queued, and a
    second call, which obtains no slot, does not return 0: it faults and
    returns nothing. *)
Lemma submit_recvmsg_request_full_ring_no_return :
  return_value
    (submit_recvmsg_request LittleEndian (SubmitRejected EAGAIN) 3 4096 8192 12288 16384 64
       one_slot_world) = Some 0 /\
  return_value
    (submit_recvmsg_request LittleEndian SubmitAccepted 3 4096 8192 12288 16384 64
       (final_state
          (submit_recvmsg_request LittleEndian (SubmitRejected EAGAIN) 3 4096 8192 12288
             16384 64 one_slot_world))) = None /\
  return_value
    (submit_recvmsg_request LittleEndian SubmitAccepted 3 4096 8192 12288 16384 64
       full_world) = None.
Proof. repeat split; reflexivity. Qed.

(** C9, amended.  Whenever a slot is obtained the call returns 0, whatever
    the kernel answers to the flush: the result of [io_uring_submit] is
    dropped.  No call returns anything but 0. *)
Theorem submit_recvmsg_request_returns_zero host reply sock mhdr iov sender buf buflen w :
  (slot_available (w_ring w) ->
   exists w',
     submit_recvmsg_request host reply sock mhdr iov sender buf buflen w = Returns 0 w') /\
  (forall r w',
     submit_recvmsg_request host reply sock mhdr iov sender buf buflen w = Returns r w' ->
     r = 0).
Proof.
  split.
  - intros H. eexists. apply submit_recvmsg_request_slot. exact H.
  - intros r w'.
    destruct (Nat.ltb_spec (length (sq (w_ring w))) (sq_entries (w_ring w))) as [H|H].
    + rewrite submit_recvmsg_request_slot by exact H. intros [= <- _]. reflexivity.
    + rewrite submit_recvmsg_request_no_slot by (unfold slot_available; lia).
      discriminate.
Qed.

Lemma submit_recvmsg_request_returns_zero_witness :
  exists w',
    submit_recvmsg_request LittleEndian (SubmitRejected EAGAIN) 3 4096 8192 12288 16384 64
      idle_world = Returns 0 w'.
Proof.
  apply (proj1 (submit_recvmsg_request_returns_zero LittleEndian (SubmitRejected EAGAIN) 3
                  4096 8192 12288 16384 64 idle_world)).
  unfold slot_available. simpl. lia.
Defined.

(** C10.  The call assigns only the two members of the iovec and four
    members of the msghdr: every other byte of memory is as before, on
    every call, returning or not, and nothing is written to stderr.  A
    buffer and a sender slot that share no byte with those members keep
    their contents. *)
Theorem submit_recvmsg_request_frame host reply sock mhdr iov sender buf buflen w o :
  o = submit_recvmsg_request host reply sock mhdr iov sender buf buflen w ->
  (forall a, ~ wired mhdr iov a -> w_mem (final_state o) a = w_mem w a) /\
  w_stderr (final_state o) = w_stderr w /\
  (apart buf buflen mhdr iov ->
   load_bytes (w_mem (final_state o)) buf (Z.to_nat buflen)
   = load_bytes (w_mem w) buf (Z.to_nat buflen)) /\
  (apart sender sizeof_sockaddr_in mhdr iov ->
   load_bytes (w_mem (final_state o)) sender (Z.to_nat sizeof_sockaddr_in)
   = load_bytes (w_mem w) sender (Z.to_nat sizeof_sockaddr_in)).
Proof.
  intros ->. rewrite submit_recvmsg_request_memory.
  split; [| split; [| split]].
  - intros a Ha. apply wire_outside. exact Ha.
  - destruct (Nat.ltb_spec (length (sq (w_ring w))) (sq_entries (w_ring w))) as [H|H].
    + rewrite submit_recvmsg_request_slot by exact H. reflexivity.
    + rewrite submit_recvmsg_request_no_slot by (unfold slot_available; lia). reflexivity.
  - intros Hb. apply load_bytes_ext. intros x Hx. apply wire_outside, Hb.
    unfold in_object. lia.
  - intros Hs. apply load_bytes_ext. intros x Hx. apply wire_outside, Hs.
    unfold in_object. lia.
Qed.

Lemma submit_recvmsg_request_frame_witness :
  load_bytes
    (w_mem (final_state
              (submit_recvmsg_request LittleEndian SubmitAccepted 3 4096 8192 12288 16384 64
                 idle_world)))
    16384 (Z.to_nat 64)
  = load_bytes (w_mem idle_world) 16384 (Z.to_nat 64) /\
  load_bytes
    (w_mem (final_state
              (submit_recvmsg_request LittleEndian SubmitAccepted 3 4096 8192 12288 16384 64
                 idle_world)))
    12288 (Z.to_nat sizeof_sockaddr_in)
  = load_bytes (w_mem idle_world) 12288 (Z.to_nat sizeof_sockaddr_in).
Proof.
  destruct (submit_recvmsg_request_frame LittleEndian SubmitAccepted 3 4096 8192 12288 16384
              64 idle_world
              (submit_recvmsg_request LittleEndian SubmitAccepted 3 4096 8192 12288 16384
                 64 idle_world) eq_refl)
    as (_ & _ & Hb & Hs).
  split; [apply Hb | apply Hs];
    unfold apart, in_object, wired, in_field, sizeof_sockaddr_in; simpl; intros; lia.
Defined.

(* ===================================================================== *)
(** * Further properties *)
(* ===================================================================== *)

(** ** Completion wait *)

(** [receive_into] in one step: the wait on the first answer that is not an
    interruption, then the decoding. *)
Lemma receive_into_cases k w :
  receive_into k w =
  match io_uring_wait_cqe (hd_error (skip_interrupts k)) w with
  | Returns (ret_, cqe) w1 => decoded ret_ cqe w1
  | Faults w1 => Faults w1
  | Blocks w1 => Blocks w1
  end.
Proof.
  destruct (io_uring_wait_cqe (hd_error (skip_interrupts k)) w) as [[ret_ cqe] w1| |] eqn:E.
  - apply receive_into_settled. exact E.
  - rewrite receive_into_skip, receive_into_eq, E. reflexivity.
  - rewrite receive_into_skip, receive_into_eq, E. reflexivity.
Qed.

Lemma length_remove_nth {A} (l : list A) i :
  (length (firstn i l ++ skipn (S i) l) <= length l)%nat.
Proof.
  rewrite length_app, length_firstn, length_skipn. lia.
Qed.

(** Every path of [receive_into] from state [w] under answers [k]. *)
Ltac wait_cases k w :=
  rewrite (receive_into_cases k w); unfold io_uring_wait_cqe, decoded;
  let E := fresh "E" in
  destruct (cq (w_ring w)) as [|? ?] eqn:E;
  [ destruct (hd_error (skip_interrupts k)) as [[?|? ?]|];
    [ | unfold kernel_complete;
        destruct (nth_error (inflight (w_ring w)) _) as [?|];
        [cbn [cq hd_error app]; rewrite ?E; cbn [cq hd_error app] | ] | ]
  | ];
  cbn [Z.ltb Z.compare];
  repeat match goal with
         | |- context [if ?b then _ else _] => destruct b eqn:?
         end.

(** X1.  For a completion at the head of the queue with a result that is
    not negative and a handle that is not null, [receive_into] returns the
    result and releases that completion and no other: the rest of the
    queue is kept in order, the count of released completions goes up by
    one, and the submission side, memory and stderr are untouched. *)
Theorem receive_into_success k w c cs :
  cq (w_ring w) = c :: cs ->
  successful c ->
  exists w',
    receive_into k w = Returns (cqe_res c) w' /\
    cq (w_ring w') = cs /\
    cq_head (w_ring w') = S (cq_head (w_ring w)) /\
    sq (w_ring w') = sq (w_ring w) /\
    inflight (w_ring w') = inflight (w_ring w) /\
    w_mem w' = w_mem w /\
    w_stderr w' = w_stderr w.
Proof.
  intros H [Hres Hd].
  destruct (receive_into_success_released k w c cs H Hres Hd) as (E & Hcq & Hh).
  exists (released w). repeat split; try assumption; reflexivity.
Qed.

Lemma receive_into_success_witness :
  exists w',
    receive_into [] ready_world = Returns 10 w' /\
    cq (w_ring w') = [Cqe 8192 7 0] /\
    cq_head (w_ring w') = 1%nat.
Proof.
  destruct (receive_into_success [] ready_world (Cqe 4096 10 0) [Cqe 8192 7 0])
    as (w' & E & Hcq & Hh & _).
  - reflexivity.
  - split; [cbn; lia | discriminate].
  - exists w'. repeat split; assumption.
Defined.

(** X2.  Whatever the kernel answers and however the call ends,
    [receive_into] leaves the submission queue as it was, releases at
    most one completion, and adds no request in flight. *)
Theorem receive_into_frame k w :
  sq (w_ring (final_state (receive_into k w))) = sq (w_ring w) /\
  sq_entries (w_ring (final_state (receive_into k w))) = sq_entries (w_ring w) /\
  (cq_head (w_ring w) <= cq_head (w_ring (final_state (receive_into k w)))
     <= S (cq_head (w_ring w)))%nat /\
  (length (inflight (w_ring (final_state (receive_into k w))))
     <= length (inflight (w_ring w)))%nat.
Proof.
  wait_cases k w; cbn; repeat split; try lia; try apply length_remove_nth.
Qed.

(** X3.  A call that returns a negative value has written exactly one
    diagnostic to stderr: the [perror] of a failed wait, the failure
    message with the value returned, or the no-op message, in which case
    the value is -1.  A call that returns a byte count has written
    nothing; interrupted waits are silent. *)
Theorem receive_into_diagnostics k w r w' :
  receive_into k w = Returns r w' ->
  (r < 0 ->
   exists d, w_stderr w' = w_stderr w ++ [d] /\
     (d = Perror "io_uring_wait_cqe" \/
      d = Fprintf "recvmsg failed: %d.\n" [r] \/
      (d = Fprintf "received nop\n" [] /\ r = -1))) /\
  (0 <= r -> w_stderr w' = w_stderr w).
Proof.
  wait_cases k w; try discriminate; intros [= <- <-];
    repeat match goal with
           | H : (_ <? _) = true |- _ => apply Z.ltb_lt in H
           | H : (_ <? _) = false |- _ => apply Z.ltb_ge in H
           | H : (_ =? _) = true |- _ => apply Z.eqb_eq in H
           end;
    cbn in *;
    (split; intros Hr; try lia; try reflexivity);
    eexists; (split; [reflexivity | auto]).
Qed.

Lemma receive_into_diagnostics_witness :
  exists d,
    w_stderr (final_state (receive_into [WaitFailed EINTR; WaitFailed EAGAIN] idle_world))
      = w_stderr idle_world ++ [d] /\
    (d = Perror "io_uring_wait_cqe" \/
     d = Fprintf "recvmsg failed: %d.\n" [- Z.pos EAGAIN] \/
     (d = Fprintf "received nop\n" [] /\ - Z.pos EAGAIN = -1)).
Proof.
  apply (proj1 (receive_into_diagnostics [WaitFailed EINTR; WaitFailed EAGAIN] idle_world
                  (- Z.pos EAGAIN)
                  (final_state
                     (receive_into [WaitFailed EINTR; WaitFailed EAGAIN] idle_world))
                  eq_refl)).
  reflexivity.
Defined.

Lemma receive_many_step n w r w' :
  receive_into [] w = Returns r w' ->
  receive_many (S n) w = (r :: fst (receive_many n w'), snd (receive_many n w')).
Proof.
  intros H. cbn [receive_many]. rewrite H.
  destruct (receive_many n w'). reflexivity.
Qed.

(** X4.  Completions are delivered in the order they were posted: when the
    queue starts with completions that all carry a handle and a result
    that is not negative, as many calls return their results in queue
    order and leave exactly the completions behind them. *)
Theorem receive_many_fifo cs1 : forall w cs2,
  cq (w_ring w) = cs1 ++ cs2 ->
  Forall successful cs1 ->
  fst (receive_many (length cs1) w) = map cqe_res cs1 /\
  cq (w_ring (snd (receive_many (length cs1) w))) = cs2 /\
  cq_head (w_ring (snd (receive_many (length cs1) w)))
    = (cq_head (w_ring w) + length cs1)%nat.
Proof.
  induction cs1 as [|c cs1 IH]; intros w cs2 H F.
  - cbn. repeat split; [exact H | lia].
  - inversion F as [|? ? [Hres Hd] F']; subst.
    destruct (receive_into_success_released [] w c (cs1 ++ cs2) H Hres Hd)
      as (E & Hcq & Hh).
    cbn [length]. rewrite (receive_many_step _ _ _ _ E). cbn [fst snd map].
    destruct (IH (released w) cs2 Hcq F') as (I1 & I2 & I3).
    rewrite I1, I2, I3, Hh. repeat split. lia.
Qed.

Lemma receive_many_fifo_witness :
  fst (receive_many 2 ready_world) = [10; 7] /\
  cq (w_ring (snd (receive_many 2 ready_world))) = [] /\
  cq_head (w_ring (snd (receive_many 2 ready_world))) = 2%nat.
Proof.
  apply (receive_many_fifo [Cqe 4096 10 0; Cqe 8192 7 0] ready_world []).
  - reflexivity.
  - repeat constructor; cbn; try lia; discriminate.
Defined.

(** X5.  A completion at the head of the queue that failed, or that
    carries no handle, is returned again by every later call: any number
    of calls return the same value, the ring does not change, and the
    completions queued behind it are never reached. *)
Theorem receive_many_stalls n : forall w c cs,
  cq (w_ring w) = c :: cs ->
  cqe_res c < 0 \/ io_uring_cqe_get_data c = NULL ->
  fst (receive_many n w) = repeat (if cqe_res c <? 0 then cqe_res c else -1) n /\
  w_ring (snd (receive_many n w)) = w_ring w.
Proof.
  induction n as [|n IH]; intros w c cs H Hc.
  - cbn. auto.
  - pose proof (receive_into_ready [] w c cs H) as E. unfold decoded in E.
    cbn [Z.ltb Z.compare] in E.
    destruct (Z.ltb_spec (cqe_res c) 0) as [Hn|Hn].
    + rewrite (receive_many_step _ _ _ _ E). cbn [fst snd repeat].
      destruct (IH (log (Fprintf "recvmsg failed: %d.\n" [cqe_res c]) w) c cs H Hc)
        as (I1 & I2).
      rewrite I1, I2. destruct (Z.ltb_spec (cqe_res c) 0); [auto | lia].
    + destruct Hc as [Hc|Hc]; [lia |]. rewrite Hc in E. cbn in E.
      rewrite (receive_many_step _ _ _ _ E). cbn [fst snd repeat].
      destruct (IH (log (Fprintf "received nop\n" []) w) c cs H (or_intror Hc))
        as (I1 & I2).
      rewrite I1, I2. destruct (Z.ltb_spec (cqe_res c) 0); [lia | auto].
Qed.

Lemma receive_many_stalls_witness :
  fst (receive_many 3 failed_world) = [- Z.pos EAGAIN; - Z.pos EAGAIN; - Z.pos EAGAIN] /\
  w_ring (snd (receive_many 3 failed_world)) = w_ring failed_world.
Proof.
  apply (receive_many_stalls 3 failed_world failed_cqe [Cqe 8192 10 0]).
  - reflexivity.
  - left. cbn. lia.
Defined.

(** X6.  The retry is for the wait only: a completion whose own result is
    -EINTR is returned to the caller as -EINTR, and stays in the queue. *)
Theorem completion_eintr_surfaces k w c cs :
  cq (w_ring w) = c :: cs ->
  cqe_res c = - Z.pos EINTR ->
  exists w',
    receive_into k w = Returns (- Z.pos EINTR) w' /\
    w_ring w' = w_ring w.
Proof.
  intros H Hr. rewrite (receive_into_ready _ _ _ _ H). unfold decoded.
  rewrite Hr. cbn. eexists. split; reflexivity.
Qed.

Lemma completion_eintr_surfaces_witness :
  exists w',
    receive_into [WaitFailed EINTR] eintr_world = Returns (- Z.pos EINTR) w' /\
    w_ring w' = w_ring eintr_world.
Proof.
  apply (completion_eintr_surfaces [WaitFailed EINTR] eintr_world
           (Cqe 4096 (- Z.pos EINTR) 0) []);
    reflexivity.
Defined.

(** ** Submission and completion together *)

Lemma remove_last {A} (l : list A) x :
  firstn (length l) (l ++ [x]) ++ skipn (S (length l)) (l ++ [x]) = l.
Proof.
  rewrite firstn_app, Nat.sub_diag, firstn_all. cbn [firstn].
  rewrite skipn_app, skipn_all2 by lia.
  replace (S (length l) - length l)%nat with 1%nat by lia. cbn.
  rewrite !app_nil_r. reflexivity.
Qed.

(** X7.  Submit, then wait: after a submission the kernel accepted, on a
    ring with no completion pending, [receive_into] returns exactly the
    result with which the kernel completes the request, negative or not.
    The request is no longer in flight; its completion is released when
    the result is not negative and stays queued when it is. *)
Theorem submit_then_receive host sock mhdr iov sender buf buflen w res :
  slot_available (w_ring w) ->
  valid_ptr mhdr -> mhdr <> NULL ->
  cq (w_ring w) = [] ->
  exists w1 w2,
    submit_recvmsg_request host SubmitAccepted sock mhdr iov sender buf buflen w
      = Returns 0 w1 /\
    receive_into [Completed (length (inflight (w_ring w)) + length (sq (w_ring w))) res] w1
      = Returns res w2 /\
    inflight (w_ring w2) = inflight (w_ring w) ++ sq (w_ring w) /\
    (0 <= res -> cq (w_ring w2) = [] /\ cq_head (w_ring w2) = S (cq_head (w_ring w))) /\
    (res < 0 -> cq (w_ring w2) = [Cqe mhdr res 0] /\ cq_head (w_ring w2) = cq_head (w_ring w)).
Proof.
  unfold valid_ptr. intros Hs Hm Hn Hcq.
  assert (N : nth_error (inflight (w_ring w) ++ sq (w_ring w) ++ [recvmsg_sqe sock mhdr])
                (length (inflight (w_ring w)) + length (sq (w_ring w)))
              = Some (recvmsg_sqe sock mhdr)).
  { rewrite app_assoc, <- length_app. apply nth_error_app_end. }
  exists (World (wire host mhdr iov sender buf buflen (w_mem w))
                (flushed SubmitAccepted (recvmsg_sqe sock mhdr) (w_ring w))
                (w_stderr w)).
  rewrite (submit_recvmsg_request_slot _ _ _ _ _ _ _ _ _ Hs), Z.mod_small by exact Hm.
  erewrite receive_into_completed;
    [| exact Hcq
     | unfold kernel_complete; cbn [w_ring flushed inflight]; rewrite N; reflexivity].
  erewrite receive_into_ready; [| cbn; rewrite Hcq; reflexivity].
  unfold decoded. cbn [Z.ltb Z.compare cqe_res sqe_user_data io_uring_cqe_get_data
                         cqe_user_data recvmsg_sqe].
  destruct (Z.eqb_spec mhdr NULL) as [|_]; [contradiction |].
  rewrite app_assoc, <- length_app, remove_last, Hcq.
  destruct (Z.ltb_spec res 0); eexists; (split; [reflexivity |]);
    (split; [reflexivity |]); cbn; repeat split; intros; try lia; auto.
Qed.

Lemma submit_then_receive_witness :
  exists w1 w2,
    submit_recvmsg_request LittleEndian SubmitAccepted 3 4096 8192 12288 16384 64 idle_world
      = Returns 0 w1 /\
    receive_into [Completed 0 10] w1 = Returns 10 w2 /\
    inflight (w_ring w2) = [].
Proof.
  destruct (submit_then_receive LittleEndian 3 4096 8192 12288 16384 64 idle_world 10)
    as (w1 & w2 & E1 & E2 & Hi & _).
  - unfold slot_available. simpl. lia.
  - unfold valid_ptr, two64, pointer_bits. simpl. lia.
  - discriminate.
  - reflexivity.
  - exists w1, w2. repeat split; assumption.
Defined.

(** X8.  A request whose flush the kernel rejected is not lost: the call
    still returns 0, the entry stays queued, and the flush of the next
    submission hands both entries to the kernel, the older first. *)
Theorem rejected_flush_keeps_request
    host e sock1 mhdr1 iov1 sender1 buf1 buflen1 sock2 mhdr2 iov2 sender2 buf2 buflen2 w :
  (S (length (sq (w_ring w))) < sq_entries (w_ring w))%nat ->
  valid_ptr mhdr1 -> valid_ptr mhdr2 ->
  exists w1 w2,
    submit_recvmsg_request host (SubmitRejected e) sock1 mhdr1 iov1 sender1 buf1 buflen1 w
      = Returns 0 w1 /\
    sq (w_ring w1) = sq (w_ring w) ++ [recvmsg_sqe sock1 mhdr1] /\
    inflight (w_ring w1) = inflight (w_ring w) /\
    submit_recvmsg_request host SubmitAccepted sock2 mhdr2 iov2 sender2 buf2 buflen2 w1
      = Returns 0 w2 /\
    sq (w_ring w2) = [] /\
    inflight (w_ring w2)
      = inflight (w_ring w) ++ sq (w_ring w)
          ++ [recvmsg_sqe sock1 mhdr1; recvmsg_sqe sock2 mhdr2].
Proof.
  unfold valid_ptr. intros Hs H1 H2.
  eexists. eexists.
  split; [apply submit_recvmsg_request_slot; unfold slot_available; lia |].
  rewrite !Z.mod_small by assumption.
  split; [reflexivity |]. split; [reflexivity |].
  split.
  - apply submit_recvmsg_request_slot. unfold slot_available.
    cbn [w_ring flushed sq sq_entries]. rewrite length_app. cbn [length]. lia.
  - rewrite !Z.mod_small by assumption. cbn [w_ring flushed sq inflight].
    split; [reflexivity |]. rewrite <- !app_assoc. reflexivity.
Qed.

Lemma rejected_flush_keeps_request_witness :
  exists w1 w2,
    submit_recvmsg_request LittleEndian (SubmitRejected EAGAIN) 3 4096 8192 12288 16384 64
      idle_world = Returns 0 w1 /\
    submit_recvmsg_request LittleEndian SubmitAccepted 3 20480 24576 28672 32768 64 w1
      = Returns 0 w2 /\
    inflight (w_ring w2) = [recvmsg_sqe 3 4096; recvmsg_sqe 3 20480].
Proof.
  destruct (rejected_flush_keeps_request LittleEndian EAGAIN 3 4096 8192 12288 16384 64
              3 20480 24576 28672 32768 64 idle_world)
    as (w1 & w2 & E1 & _ & _ & E2 & _ & Hi).
  - simpl. lia.
  - unfold valid_ptr, two64, pointer_bits. simpl. lia.
  - unfold valid_ptr, two64, pointer_bits. simpl. lia.
  - exists w1, w2. repeat split; assumption.
Defined.

Lemma submit_all_inflight host qs : forall w,
  sq (w_ring w) = [] -> (0 < sq_entries (w_ring w))%nat ->
  Forall (fun q => valid_ptr (rq_mhdr q)) qs ->
  exists w',
    submit_all host qs w = Returns tt w' /\
    sq (w_ring w') = [] /\
    sq_entries (w_ring w') = sq_entries (w_ring w) /\
    inflight (w_ring w') = inflight (w_ring w) ++ map request_sqe qs /\
    cq (w_ring w') = cq (w_ring w).
Proof.
  induction qs as [|q qs IH]; intros w Hsq Hn F.
  - exists w. cbn. rewrite app_nil_r. auto.
  - inversion F as [|? ? Hq F']; subst. unfold valid_ptr in Hq.
    cbn [submit_all]. unfold bind.
    rewrite submit_recvmsg_request_slot by (unfold slot_available; rewrite Hsq; exact Hn).
    rewrite Z.mod_small by exact Hq.
    match goal with |- context [submit_all host qs ?w1] =>
      destruct (IH w1) as (w' & E & I1 & I2 & I3 & I4); [reflexivity | exact Hn | exact F' |]
    end.
    exists w'. split; [exact E |]. split; [exact I1 |]. split; [exact I2 |].
    split; [| exact I4].
    rewrite I3. cbn [w_ring flushed inflight map]. rewrite Hsq.
    cbn [app]. rewrite <- app_assoc. reflexivity.
Qed.

(** X9.  With several requests outstanding the handle tells them apart:
    after any number of submissions, each accepted, the requests are in
    flight in submission order, and whichever of them the kernel
    completes first, the completion it posts carries the msghdr address of
    that request. *)
Theorem outstanding_requests_keep_their_handles host qs w i q res :
  sq (w_ring w) = [] -> (0 < sq_entries (w_ring w))%nat ->
  Forall (fun q => valid_ptr (rq_mhdr q)) qs ->
  nth_error qs i = Some q ->
  exists w' r2,
    submit_all host qs w = Returns tt w' /\
    inflight (w_ring w') = inflight (w_ring w) ++ map request_sqe qs /\
    kernel_complete (length (inflight (w_ring w)) + i) res (w_ring w') = Some r2 /\
    cq r2 = cq (w_ring w) ++ [Cqe (rq_mhdr q) res 0].
Proof.
  intros Hsq Hn F Hi.
  destruct (submit_all_inflight host qs w Hsq Hn F) as (w' & E & _ & _ & I3 & I4).
  exists w'. unfold kernel_complete. rewrite I3, I4.
  rewrite nth_error_app2 by lia.
  replace (length (inflight (w_ring w)) + i - length (inflight (w_ring w)))%nat with i by lia.
  rewrite nth_error_map, Hi. cbn [option_map].
  eexists. split; [exact E |]. split; [reflexivity |]. split; [reflexivity |].
  reflexivity.
Qed.

Lemma outstanding_requests_keep_their_handles_witness :
  exists w' r2,
    submit_all LittleEndian [request_a; request_b] idle_world = Returns tt w' /\
    kernel_complete 1 10 (w_ring w') = Some r2 /\
    cq r2 = [Cqe 20480 10 0].
Proof.
  destruct (outstanding_requests_keep_their_handles LittleEndian [request_a; request_b]
              idle_world 1 request_b 10)
    as (w' & r2 & E & _ & K & Hc).
  - reflexivity.
  - simpl. lia.
  - repeat constructor; unfold valid_ptr, two64, pointer_bits; simpl; lia.
  - reflexivity.
  - exists w', r2. repeat split; assumption.
Defined.

(** X10.  The round trip of a no-op.  On a ring with a free slot and no
    completion pending, [submit_nop_request] returns, the flush accepted,
    with memory and stderr untouched.  Once the kernel has completed the
    no-op with a result that is not negative, before the wait or during
    it, [receive_into] returns -1, the completion stays at the head of
    the queue and nothing is released or left in flight. *)
Theorem nop_round_trip w res :
  slot_available (w_ring w) ->
  cq (w_ring w) = [] ->
  0 <= res ->
  exists w1 r2 w2,
    submit_nop_request SubmitAccepted w = Returns tt w1 /\
    w_mem w1 = w_mem w /\
    w_stderr w1 = w_stderr w /\
    kernel_complete (length (inflight (w_ring w)) + length (sq (w_ring w))) res (w_ring w1)
      = Some r2 /\
    receive_into [] (set_ring r2 w1) = Returns (-1) w2 /\
    receive_into [Completed (length (inflight (w_ring w)) + length (sq (w_ring w))) res] w1
      = Returns (-1) w2 /\
    cq (w_ring w2) = [Cqe NULL res 0] /\
    cq_head (w_ring w2) = cq_head (w_ring w) /\
    inflight (w_ring w2) = inflight (w_ring w) ++ sq (w_ring w).
Proof.
  intros Hs Hcq Hres.
  assert (N : nth_error (inflight (w_ring w) ++ sq (w_ring w)
                           ++ [Sqe IORING_OP_NOP 0 0 (-1) 0 0 0 0 0])
                (length (inflight (w_ring w)) + length (sq (w_ring w)))
              = Some (Sqe IORING_OP_NOP 0 0 (-1) 0 0 0 0 0)).
  { rewrite app_assoc, <- length_app. apply nth_error_app_end. }
  eexists. eexists. eexists.
  split; [apply submit_nop_request_slot; exact Hs |].
  split; [reflexivity |]. split; [reflexivity |].
  assert (K : kernel_complete (length (inflight (w_ring w)) + length (sq (w_ring w))) res
                (flushed SubmitAccepted (Sqe IORING_OP_NOP 0 0 (-1) 0 0 0 0 0) (w_ring w))
              = Some (Ring (sq_entries (w_ring w)) []
                           (inflight (w_ring w) ++ sq (w_ring w))
                           [Cqe 0 res 0] (cq_head (w_ring w)))).
  { unfold kernel_complete. cbn [flushed inflight sq sq_entries cq cq_head].
    rewrite N. cbn [sqe_user_data]. rewrite Hcq.
    rewrite app_assoc, <- length_app, remove_last. reflexivity. }
  split; [exact K |].
  assert (R : receive_into []
                (set_ring (Ring (sq_entries (w_ring w)) []
                                (inflight (w_ring w) ++ sq (w_ring w))
                                [Cqe 0 res 0] (cq_head (w_ring w)))
                   (set_ring (flushed SubmitAccepted
                                (Sqe IORING_OP_NOP 0 0 (-1) 0 0 0 0 0) (w_ring w)) w))
              = Returns (-1)
                  (log (Fprintf "received nop\n" [])
                     (set_ring (Ring (sq_entries (w_ring w)) []
                                     (inflight (w_ring w) ++ sq (w_ring w))
                                     [Cqe 0 res 0] (cq_head (w_ring w)))
                        (set_ring (flushed SubmitAccepted
                                     (Sqe IORING_OP_NOP 0 0 (-1) 0 0 0 0 0) (w_ring w)) w)))).
  { erewrite receive_into_ready; [| reflexivity].
    unfold decoded. cbn [Z.ltb Z.compare cqe_res io_uring_cqe_get_data cqe_user_data].
    destruct (Z.ltb_spec res 0); [lia | reflexivity]. }
  split; [exact R |].
  split.
  - erewrite receive_into_completed; [exact R | exact Hcq | exact K].
  - repeat split.
Qed.

Lemma nop_round_trip_witness :
  exists w1 w2,
    submit_nop_request SubmitAccepted idle_world = Returns tt w1 /\
    receive_into [Completed 0 0] w1 = Returns (-1) w2 /\
    cq (w_ring w2) = [Cqe NULL 0 0].
Proof.
  destruct (nop_round_trip idle_world 0) as (w1 & r2 & w2 & E & _ & _ & _ & _ & R & Hc & _).
  - unfold slot_available. simpl. lia.
  - reflexivity.
  - lia.
  - exists w1, w2. repeat split; assumption.
Defined.

(** ** The descriptor *)

Lemma store_bytes_inside bs : forall m1 m2 a x,
  a <= x < a + Z.of_nat (length bs) -> store_bytes m1 a bs x = store_bytes m2 a bs x.
Proof.
  induction bs as [|b bs IH]; intros m1 m2 a x Hx; cbn [store_bytes length] in *.
  - lia.
  - destruct (Z.eq_dec x a) as [->|Hne].
    + rewrite !store_bytes_outside by lia. rewrite Z.eqb_refl. reflexivity.
    + apply IH. lia.
Qed.

Lemma store_field_agree h m1 m2 p f v x :
  m1 x = m2 x \/ in_field p f x ->
  store_field h m1 p f v x = store_field h m2 p f v x.
Proof.
  unfold store_field, in_field. intros H.
  destruct (Z_lt_dec x (p + f_off f)) as [Hl|Hl];
    [| destruct (Z_le_dec (p + f_off f + Z.of_nat (f_size f)) x) as [Hr|Hr]].
  - rewrite !store_bytes_outside by lia. destruct H; [assumption | lia].
  - rewrite !store_bytes_outside by (rewrite length_encode; lia).
    destruct H; [assumption | lia].
  - apply store_bytes_inside. rewrite length_encode. lia.
Qed.

Lemma in_field_dec p f x : {in_field p f x} + {~ in_field p f x}.
Proof.
  unfold in_field.
  destruct (Z_le_dec (p + f_off f) x); [| right; lia].
  destruct (Z_lt_dec x (p + f_off f + Z.of_nat (f_size f))); [left | right]; lia.
Qed.

Lemma wired_dec mhdr iov x : {wired mhdr iov x} + {~ wired mhdr iov x}.
Proof.
  unfold wired.
  destruct (in_field_dec iov iov_base x); [left; tauto |].
  destruct (in_field_dec iov iov_len x); [left; tauto |].
  destruct (in_field_dec mhdr msg_iov x); [left; tauto |].
  destruct (in_field_dec mhdr msg_iovlen x); [left; tauto |].
  destruct (in_field_dec mhdr msg_name x); [left; tauto |].
  destruct (in_field_dec mhdr msg_namelen x); [left; tauto |].
  right. tauto.
Qed.

(** The wired bytes do not depend on what memory held before. *)
Lemma wire_agree host mhdr iov sender buf buflen m1 m2 x :
  m1 x = m2 x \/ wired mhdr iov x ->
  wire host mhdr iov sender buf buflen m1 x = wire host mhdr iov sender buf buflen m2 x.
Proof.
  unfold wire, wired. intros H.
  repeat (apply store_field_agree;
          match goal with
          | |- _ \/ in_field ?p ?f ?x =>
              destruct (in_field_dec p f x); [right; assumption | left]
          end).
  tauto.
Qed.

(** X11.  Submitting the same descriptor again, as a receive loop does
    after each completion, writes the same bytes: memory after the second
    call is, byte for byte, memory after the first, whether or not the
    iovec and the msghdr overlap and however either call ends. *)
Theorem resubmit_same_wiring
    host r1 r2 sock mhdr iov sender buf buflen w (a : ptr) :
  w_mem (final_state
           (submit_recvmsg_request host r2 sock mhdr iov sender buf buflen
              (final_state
                 (submit_recvmsg_request host r1 sock mhdr iov sender buf buflen w)))) a
  = w_mem (final_state
             (submit_recvmsg_request host r1 sock mhdr iov sender buf buflen w)) a.
Proof.
  rewrite !submit_recvmsg_request_memory.
  destruct (wired_dec mhdr iov a) as [Hw|Hw].
  - apply wire_agree. right. exact Hw.
  - rewrite !wire_outside by exact Hw. reflexivity.
Qed.

(** X12.  A negative [buflen] is not refused: converted to the unsigned
    length of the iovec it becomes 2^64 + buflen, a length of more than
    2^63 bytes. *)
Theorem negative_buflen_wraps host reply sock mhdr iov sender buf buflen w :
  iov + sizeof_iovec <= mhdr \/ mhdr + sizeof_msghdr <= iov ->
  - 2 ^ 31 <= buflen < 0 ->
  load_field host
    (w_mem (final_state
              (submit_recvmsg_request host reply sock mhdr iov sender buf buflen w)))
    iov iov_len = 2 ^ 64 + buflen.
Proof.
  intros Hd Hb. rewrite submit_recvmsg_request_memory.
  destruct (wire_fields host mhdr iov sender buf buflen (w_mem w) Hd) as (_ & F2 & _).
  rewrite F2. unfold two64, pointer_bits.
  rewrite <- (Z.mod_small (2 ^ 64 + buflen) (2 ^ 64)) by lia.
  rewrite <- (Z.mod_add buflen 1 (2 ^ 64)) by lia.
  f_equal. lia.
Qed.

Lemma negative_buflen_wraps_witness :
  load_field LittleEndian
    (w_mem (final_state
              (submit_recvmsg_request LittleEndian SubmitAccepted 3 4096 8192 12288 16384
                 (-1) idle_world)))
    8192 iov_len = 2 ^ 64 + -1.
Proof.
  apply (negative_buflen_wraps LittleEndian SubmitAccepted 3 4096 8192 12288 16384 (-1)
           idle_world);
    unfold sizeof_iovec, sizeof_msghdr; simpl; lia.
Defined.

(** X13.  The call sets four members of the msghdr and no more:
    msg_control, msg_controllen and msg_flags keep whatever the caller's
    memory held, so a caller that wants no control data has to clear them
    itself. *)
Theorem msghdr_control_left_alone host reply sock mhdr iov sender buf buflen w :
  iov + sizeof_iovec <= mhdr \/ mhdr + sizeof_msghdr <= iov ->
  load_field host
    (w_mem (final_state
              (submit_recvmsg_request host reply sock mhdr iov sender buf buflen w)))
    mhdr msg_control = load_field host (w_mem w) mhdr msg_control /\
  load_field host
    (w_mem (final_state
              (submit_recvmsg_request host reply sock mhdr iov sender buf buflen w)))
    mhdr msg_controllen = load_field host (w_mem w) mhdr msg_controllen /\
  load_field host
    (w_mem (final_state
              (submit_recvmsg_request host reply sock mhdr iov sender buf buflen w)))
    mhdr msg_flags = load_field host (w_mem w) mhdr msg_flags.
Proof.
  unfold sizeof_iovec, sizeof_msghdr. intros Hd. rewrite submit_recvmsg_request_memory.
  repeat split; apply load_field_ext; intros x Hx; apply wire_outside;
    unfold wired, in_field in *; cbn in *; lia.
Qed.

Lemma msghdr_control_left_alone_witness :
  load_field BigEndian
    (w_mem (final_state
              (submit_recvmsg_request BigEndian SubmitAccepted 3 4096 8192 12288 16384 64
                 idle_world)))
    4096 msg_control = load_field BigEndian (w_mem idle_world) 4096 msg_control.
Proof.
  refine (proj1 (msghdr_control_left_alone BigEndian SubmitAccepted 3 4096 8192 12288 16384
                   64 idle_world _)).
  unfold sizeof_iovec, sizeof_msghdr. simpl. lia.
Defined.

(** ** The sender address *)

Lemma byte_of_val (b : byte) : byte_of (byte_val b) = b.
Proof.
  unfold byte_of, byte_val.
  pose proof (Byte.to_N_bounded b) as Hb.
  rewrite Z.mod_small by lia.
  rewrite N2Z.id, Byte.of_to_N. reflexivity.
Qed.

Lemma encode_decode_le bs : encode_le (length bs) (decode_le bs) = bs.
Proof.
  induction bs as [|b bs IH]; cbn [length encode_le decode_le]; [reflexivity |].
  pose proof (byte_val_range b) as Hb.
  assert (E1 : byte_of (byte_val b + 256 * decode_le bs) = b).
  { rewrite <- (byte_of_val b) at 2. unfold byte_of.
    replace ((byte_val b + 256 * decode_le bs) mod 256) with (byte_val b mod 256);
      [reflexivity |].
    rewrite (Z.mul_comm 256), Z.mod_add by lia. reflexivity. }
  assert (E2 : (byte_val b + 256 * decode_le bs) / 256 = decode_le bs).
  { rewrite (Z.mul_comm 256), Z.div_add by lia.
    rewrite Z.div_small by lia. lia. }
  rewrite E1, E2, IH. reflexivity.
Qed.

Lemma encode_decode_be bs : encode BigEndian (length bs) (decode_be bs) = bs.
Proof.
  unfold encode, decode_be. rewrite <- (length_rev bs), encode_decode_le.
  apply rev_involutive.
Qed.

Lemma ip_value host sa w :
  ip host sa w = Returns (decode_be (load_bytes (w_mem w) (sa + 4) 4)) w.
Proof.
  unfold ip, bind, load, ret. f_equal.
  unfold load_field. cbn [sin_addr f_size f_off].
  destruct host; [| reflexivity].
  cbn [ntohl decode load_bytes]. apply bswap_32_decode.
Qed.

Lemma port_value host sa w :
  port host sa w = Returns (decode_be (load_bytes (w_mem w) (sa + 2) 2)) w.
Proof.
  unfold port, bind, load, ret. f_equal.
  unfold load_field. cbn [sin_port f_size f_off].
  destruct host; [| reflexivity].
  cbn [ntohs decode load_bytes]. apply bswap_16_decode.
Qed.

(** X14.  [ip] and [port] lose nothing: written out most significant byte
    first, the values they return are the four address bytes and the two
    port bytes of the slot, on a host of either byte order. *)
Theorem ip_port_keep_the_bytes host sa w :
  exists a p,
    ip host sa w = Returns a w /\
    port host sa w = Returns p w /\
    encode BigEndian 4 a = load_bytes (w_mem w) (sa + 4) 4 /\
    encode BigEndian 2 p = load_bytes (w_mem w) (sa + 2) 2.
Proof.
  eexists. eexists.
  split; [apply ip_value |]. split; [apply port_value |].
  split.
  - apply (encode_decode_be (load_bytes (w_mem w) (sa + 4) 4)).
  - apply (encode_decode_be (load_bytes (w_mem w) (sa + 2) 2)).
Qed.

(** X15.  Two sender slots for which [ip] and [port] return the same
    values hold the same port and address bytes: distinct senders are
    never reported alike. *)
Theorem ip_port_injective host sa1 w1 sa2 w2 :
  return_value (ip host sa1 w1) = return_value (ip host sa2 w2) ->
  return_value (port host sa1 w1) = return_value (port host sa2 w2) ->
  load_bytes (w_mem w1) (sa1 + 2) 6 = load_bytes (w_mem w2) (sa2 + 2) 6.
Proof.
  rewrite !ip_value, !port_value. cbn [return_value]. intros [= Hi] [= Hp].
  pose proof (encode_decode_be (load_bytes (w_mem w1) (sa1 + 4) 4)) as A1.
  pose proof (encode_decode_be (load_bytes (w_mem w2) (sa2 + 4) 4)) as A2.
  pose proof (encode_decode_be (load_bytes (w_mem w1) (sa1 + 2) 2)) as P1.
  pose proof (encode_decode_be (load_bytes (w_mem w2) (sa2 + 2) 2)) as P2.
  cbn [length load_bytes] in A1, A2, P1, P2.
  rewrite Hi in A1. rewrite Hp in P1. rewrite A2 in A1. rewrite P2 in P1.
  cbn [load_bytes].
  replace (sa1 + 2 + 1 + 1) with (sa1 + 4) by lia.
  replace (sa2 + 2 + 1 + 1) with (sa2 + 4) by lia.
  injection A1 as -> -> -> ->. injection P1 as -> ->. reflexivity.
Qed.

Lemma ip_port_injective_witness :
  return_value (ip LittleEndian 12288 slot_a_world) = Some 3232235853 /\
  return_value (port LittleEndian 28672 slot_b_world) = Some 51413 /\
  load_bytes (w_mem slot_a_world) (12288 + 2) 6
    = load_bytes (w_mem slot_b_world) (28672 + 2) 6.
Proof.
  split; [reflexivity |]. split; [reflexivity |].
  apply (ip_port_injective LittleEndian 12288 slot_a_world 28672 slot_b_world);
    reflexivity.
Defined.
